(** * Game-theory agent: the game-tree schema and its rendering traversal

    A shallow embedding of [schemas.py] (the [Payoff], [Action] and
    [GameNode] models with the [validate_choices] field validator) and of
    the visualizer of [app.py] ([wrap_text], [draw_game_tree] and its inner
    [add_nodes_edges]).

    Python objects live in a store indexed by their identity (the integer
    that [id()] returns); an [Action] holds the identity of its [next_node],
    so that malformed, cyclic structures can be written down.  The Graphviz
    object is the list of statements of its body, in the order in which
    [dot.attr], [dot.node] and [dot.edge] append them.  The interpreter's
    recursion limit is the [limit] argument of the traversal. *)

From Stdlib Require Import String Ascii List ZArith Lia Floats.
From stdpp Require Import base option list relations strings pretty.

Open Scope string_scope.
Open Scope list_scope.

(** ** Python values *)

(** Object identity, the integer [id(obj)] returns. *)
Definition addr := N.

Abbreviation float := PrimFloat.float.

(** The line feed of the source's ["\n"]. *)
Definition LF : string := String "010"%char EmptyString.

(** Truth value of a [str]: only the empty string is false. *)
Definition str_truthy (s : string) : bool :=
  match s with
  | EmptyString => false
  | String _ _ => true
  end.

(** Truth value of a [float]: [x != 0.0], so both zeros are false and a
    NaN is true. *)
Definition float_truthy (x : float) : bool := negb (PrimFloat.eqb x 0%float).

(** [x or default] on an [Optional[str]]. *)
Definition str_or (x : option string) (default : string) : string :=
  match x with
  | Some s => if str_truthy s then s else default
  | None => default
  end.

(** [str.lower] on the ASCII letters; the other bytes are kept.  The result
    is only compared with ['nature'], and no character outside ASCII
    lower-cases to one of its letters. *)
Definition lower_ascii (c : ascii) : ascii :=
  let n := nat_of_ascii c in
  if (65 <=? n)%nat && (n <=? 90)%nat then ascii_of_nat (n + 32) else c.

Fixpoint lower (s : string) : string :=
  match s with
  | EmptyString => EmptyString
  | String c s' => String (lower_ascii c) (lower s')
  end.

(** [sep.join(parts)]. *)
Definition join (sep : string) (parts : list string) : string :=
  String.concat sep parts.

(** [str(id(node))]: the decimal numeral of the identity. *)
Definition node_id_of (node : addr) : string := pretty node.

(** ** schemas.py *)

Record Payoff := {
  outcome_summary : string;
  utilities : list (string * float)   (* a dict, in its iteration order *)
}.

Record Action := {
  name : string;
  description : string;
  probability : option float;
  next_node : addr
}.

Record GameNode := {
  id : string;
  current_player_name : option string;
  is_terminal : bool;
  actions : option (list Action);
  payoff : option Payoff
}.

(** The store: every reference denotes an object. *)
Definition heap := addr → GameNode.

(** Exceptions the modelled code can raise. *)
Inductive exn := RecursionError.

Inductive outcome (A : Type) :=
| Returned (a : A)
| Raised (e : exn).
Arguments Returned {A} a.
Arguments Raised {A} e.

(** Truth value of a list: only the empty list is false. *)
Definition list_truthy {A} (v : option (list A)) : bool :=
  match v with
  | Some (_ :: _) => true
  | _ => false
  end.

(** [GameNode.validate_choices], the validator of the field [actions]. *)
Definition validate_choices (v : option (list Action))
  : outcome (option (list Action)) :=
  if negb (list_truthy v) then Returned v
  else
    let _ := if (length (default [] v) <? 2)%nat then tt (* pass *) else tt in
    Returned v.

(** Construction of a [GameNode] from its fields: the field validator runs
    on [actions] and the object holds what it returns. *)
Definition GameNode_init (id0 : string) (player : option string)
    (terminal : bool) (acts : option (list Action)) (pay : option Payoff)
  : outcome GameNode :=
  match validate_choices acts with
  | Returned v =>
      Returned {| id := id0; current_player_name := player;
                  is_terminal := terminal; actions := v; payoff := pay |}
  | Raised e => Raised e
  end.

(** ** graphviz.Digraph *)

Definition attrs := list (string * string).

Inductive stmt :=
| AttrStmt (key value : string)
| NodeStmt (name label : string) (a : attrs)
| EdgeStmt (tail head label : string) (a : attrs).

Definition Digraph := list stmt.

(** The graph description read off a body: node records and edges. *)
Definition nodes (g : Digraph) : list (string * string * attrs) :=
  omap (λ s, match s with NodeStmt n l a => Some (n, l, a) | _ => None end) g.

Definition edges (g : Digraph) : list (string * string * string) :=
  omap (λ s, match s with EdgeStmt t h l _ => Some (t, h, l) | _ => None end) g.

(** ** The interpreter state and its monad *)

Record world := World {
  objects : heap;
  dot : Digraph
}.

Definition M (A : Type) := world → outcome A * world.

Definition ret {A} (a : A) : M A := λ w, (Returned a, w).

Definition bind {A B} (c : M A) (k : A → M B) : M B :=
  λ w, match c w with
       | (Returned a, w') => k a w'
       | (Raised e, w') => (Raised e, w')
       end.

Definition raise {A} (e : exn) : M A := λ w, (Raised e, w).

Notation "x <- c ;; k" := (bind c (λ x, k))
  (at level 100, c at next level, right associativity).
Notation "c ;; k" := (bind c (λ _, k))
  (at level 100, right associativity).

(** Attribute access on the object a reference denotes. *)
Definition deref (node : addr) : M GameNode :=
  λ w, (Returned (objects w node), w).

Definition emit (s : stmt) : M unit :=
  λ w, (Returned tt, World (objects w) (dot w ++ [s])).

Definition dot_attr (key value : string) : M unit := emit (AttrStmt key value).
Definition dot_node (name label : string) (a : attrs) : M unit :=
  emit (NodeStmt name label a).
Definition dot_edge (tail head label : string) (a : attrs) : M unit :=
  emit (EdgeStmt tail head label a).

(** A [for] loop over a list. *)
Fixpoint for_each {A} (l : list A) (body : A → M unit) : M unit :=
  match l with
  | [] => ret tt
  | x :: l' => body x ;; for_each l' body
  end.

(** ** app.py: the visualizer *)

Section Visualizer.

(** The two library functions the visualizer calls: [textwrap.wrap] and
    the formatting of a float inside an f-string. *)
Variable textwrap_wrap : string → nat → list string.
Variable float_str : float → string.

Definition wrap_text (text : string) (width : nat) : string :=
  if negb (str_truthy text) then ""
  else join LF (textwrap_wrap text width).

(** [node.current_player_name and node.current_player_name.lower() == 'nature'] *)
Definition is_nature (node : GameNode) : bool :=
  match current_player_name node with
  | Some s => str_truthy s && String.eqb (lower s) "nature"
  | None => false
  end.

(** The label and the attributes [add_nodes_edges] gives a node. *)
Definition node_label (node : GameNode) : string :=
  let wrapped_player := wrap_text (str_or (current_player_name node) "Unknown") 20 in
  if is_terminal node then
    let '(outcome_text, payoff_text) :=
      match payoff node with
      | Some p =>
          (wrap_text (outcome_summary p) 30,
           join LF (map (λ kv, fst kv +:+ ": " +:+ float_str (snd kv)) (utilities p)))
      | None => ("", "")
      end in
    "Outcome:" +:+ LF +:+ outcome_text +:+ LF +:+ LF +:+ "Payoffs:" +:+ LF +:+ payoff_text
  else
    wrapped_player +:+ LF +:+ "(Moves)".

Definition node_attrs (node : GameNode) : attrs :=
  if is_terminal node then
    [("shape", "box"); ("style", "filled"); ("fillcolor", "#f0f2f6");
     ("fontname", "Arial"); ("fontsize", "10")]
  else
    let shape := if is_nature node then "diamond" else "oval" in
    let color := if is_nature node then "lightgrey" else "white" in
    [("shape", shape); ("style", "filled"); ("fillcolor", color);
     ("fontname", "Arial"); ("fontsize", "11")].

(** The text [lbl] the loop builds for an action before recursing. *)
Definition action_lbl (action : Action) : string :=
  let lbl := name action in
  match probability action with
  | Some p =>
      if float_truthy p then lbl +:+ LF +:+ "(p=" +:+ float_str p +:+ ")"
      else lbl
  | None => lbl
  end.

Fixpoint add_nodes_edges (limit : nat) (node : addr)
    (parent_id : option string) (edge_label : string) : M unit :=
  match limit with
  | O => raise RecursionError
  | S limit' =>
      let node_id := node_id_of node in
      n <- deref node ;;
      dot_node node_id (node_label n) (node_attrs n) ;;
      (match parent_id with
       | Some p =>
           if str_truthy p then
             dot_edge p node_id (wrap_text edge_label 15) [("fontsize", "9")]
           else ret tt
       | None => ret tt
       end) ;;
      if list_truthy (actions n) then
        for_each (default [] (actions n))
          (λ action,
             add_nodes_edges limit' (next_node action) (Some node_id)
               (action_lbl action))
      else ret tt
  end.

Definition draw_game_tree (limit : nat) (root_node : option addr) (h : heap)
  : outcome Digraph * heap :=
  let run :=
    dot_attr "rankdir" "TB" ;;
    dot_attr "splines" "ortho" ;;
    dot_attr "nodesep" "0.5" ;;
    dot_attr "ranksep" "1.0" ;;
    match root_node with
    | Some root => add_nodes_edges limit root None ""
    | None => ret tt
    end in
  match run (World h []) with
  | (Returned _, w) => (Returned (dot w), objects w)
  | (Raised e, w) => (Raised e, objects w)
  end.

(** *** Reading the traversal

    What one activation of [add_nodes_edges] appends before it loops: the
    node's record, then the edge from the parent when there is one. *)
Definition enter (h : heap) (node : addr) (parent_id : option string)
    (edge_label : string) : list stmt :=
  NodeStmt (node_id_of node) (node_label (h node)) (node_attrs (h node)) ::
  match parent_id with
  | Some p =>
      if str_truthy p then
        [EdgeStmt p (node_id_of node) (wrap_text edge_label 15) [("fontsize", "9")]]
      else []
  | None => []
  end.

(** The statements a returning activation appends, used to state and
    prove the properties of [add_nodes_edges] (see [add_nodes_edges_fits]). *)
Fixpoint trace (h : heap) (limit : nat) (node : addr)
    (parent_id : option string) (edge_label : string) : list stmt :=
  match limit with
  | O => []
  | S limit' =>
      enter h node parent_id edge_label ++
      flat_map (λ action, trace h limit' (next_node action)
                            (Some (node_id_of node)) (action_lbl action))
               (default [] (actions (h node)))
  end.

(** The edge the traversal draws for an action of [node]. *)
Definition action_edge (node : addr) (action : Action)
  : string * string * string :=
  (node_id_of node, node_id_of (next_node action),
   wrap_text (action_lbl action) 15).

End Visualizer.

(** ** The shape of the stored structure *)

(** The actions of a node, none when the field is [None]. *)
Definition actions_of (h : heap) (node : addr) : list Action :=
  default [] (actions (h node)).

(** [child h a b]: some action of the node [a] has [b] as its [next_node]. *)
Definition child (h : heap) (a b : addr) : Prop :=
  ∃ action, action ∈ actions_of h a ∧ next_node action = b.

(** A structure is acyclic below [root] when following [next_node] from
    [root] always ends: no node below [root] is its own descendant. *)
Inductive acyclic (h : heap) (root : addr) : Prop :=
| acyclic_node : (∀ b, child h root b → acyclic h b) → acyclic h root.

(** [fits h limit node]: the structure below [node] is less than [limit]
    levels deep, so [limit] activations suffice to walk it. *)
Fixpoint fits (h : heap) (limit : nat) (node : addr) : bool :=
  match limit with
  | O => false
  | S limit' => forallb (λ action, fits h limit' (next_node action)) (actions_of h node)
  end.

(** Edge statements come after the node statements of both their ends:
    [seen] lists the names declared so far. *)
Fixpoint closed_after (seen : list string) (body : list stmt) : Prop :=
  match body with
  | [] => True
  | AttrStmt _ _ :: body' => closed_after seen body'
  | NodeStmt n _ _ :: body' => closed_after (n :: seen) body'
  | EdgeStmt t hd _ _ :: body' => t ∈ seen ∧ hd ∈ seen ∧ closed_after seen body'
  end.

(** A name is declared in a body when a node statement carries it. *)
Definition declared (n : string) (body : list stmt) : Prop :=
  ∃ l a, NodeStmt n l a ∈ body.

(** The names a body declares, in order. *)
Definition names_of (body : list stmt) : list string :=
  omap (λ s, match s with NodeStmt n _ _ => Some n | _ => None end) body.

(** In a body, every edge statement comes after a node statement for its
    tail and one for its head. *)
Definition edges_follow_nodes (g : Digraph) : Prop :=
  ∀ pre t hd l a post,
    g = pre ++ EdgeStmt t hd l a :: post → declared t pre ∧ declared hd pre.

(** The four graph attributes [draw_game_tree] sets before traversing. *)
Definition header : Digraph :=
  [AttrStmt "rankdir" "TB"; AttrStmt "splines" "ortho";
   AttrStmt "nodesep" "0.5"; AttrStmt "ranksep" "1.0"].

(** ** Example structures *)

Definition mk_action (nm : string) (p : option float) (next : addr) : Action :=
  {| name := nm; description := ""; probability := p; next_node := next |}.

Definition leaf (pay : option Payoff) : GameNode :=
  {| id := "leaf"; current_player_name := None; is_terminal := true;
     actions := None; payoff := pay |}.

(** A root whose single action leads back to the root itself. *)
Definition loop_heap : heap :=
  λ _, {| id := "root"; current_player_name := Some "Company A";
          is_terminal := false;
          actions := Some [mk_action "Wait" None 1%N]; payoff := None |}.

(** The pricing game: "Company A" chooses between two prices, each
    leading to a terminal payoff. *)
Definition raise_payoff : Payoff :=
  {| outcome_summary := "A wins"; utilities := [("A", 10%float); ("B", (-5)%float)] |}.
Definition lower_payoff : Payoff :=
  {| outcome_summary := "B wins"; utilities := [("A", (-5)%float); ("B", 10%float)] |}.

Definition pricing_root (c1 c2 : addr) : GameNode :=
  {| id := "root"; current_player_name := Some "Company A";
     is_terminal := false;
     actions := Some [mk_action "Raise Price" None c1;
                      mk_action "Lower Price" None c2];
     payoff := None |}.

Definition pricing_heap : heap :=
  λ a, if (a =? 1)%N then pricing_root 2%N 3%N
       else if (a =? 2)%N then leaf (Some raise_payoff)
       else leaf (Some lower_payoff).

(** A chance node with a branch of probability zero and a long action name. *)
Definition chance_heap : heap :=
  λ a, if (a =? 1)%N then
         {| id := "root"; current_player_name := Some "Nature";
            is_terminal := false;
            actions := Some [mk_action "Left" (Some 0%float) 2%N;
                             mk_action "Right" (Some 1%float) 3%N];
            payoff := None |}
       else leaf None.

(** A malformed structure: a node marked terminal that still has an action. *)
Definition terminal_with_action : heap :=
  λ a, if (a =? 1)%N then
         {| id := "root"; current_player_name := None; is_terminal := true;
            actions := Some [mk_action "Go" None 2%N]; payoff := None |}
       else leaf None.

(** A decision whose first action has a name longer than an edge label's
    15 columns. *)
Definition long_name_heap : heap :=
  λ a, if (a =? 1)%N then
         {| id := "root"; current_player_name := Some "Company A";
            is_terminal := false;
            actions := Some [mk_action "Raise Price Substantially" None 2%N;
                             mk_action "Hold" None 3%N];
            payoff := None |}
       else leaf None.

(** A decision node that names no player, above a terminal node that has
    no payoff. *)
Definition unnamed_heap : heap :=
  λ a, if (a =? 1)%N then
         {| id := "root"; current_player_name := None; is_terminal := false;
            actions := Some [mk_action "Go" None 2%N]; payoff := None |}
       else leaf None.

(** The attributes of the two kinds of node that name no chance player. *)
Definition oval_attrs : attrs :=
  [("shape", "oval"); ("style", "filled"); ("fillcolor", "white");
   ("fontname", "Arial"); ("fontsize", "11")].
Definition box_attrs : attrs :=
  [("shape", "box"); ("style", "filled"); ("fillcolor", "#f0f2f6");
   ("fontname", "Arial"); ("fontsize", "10")].

(** Stand-ins for the two library functions on the examples: a text of
    single-spaced words that fits its width is wrapped to itself, and the
    floats of the examples print as Python prints them. *)
Definition wrap_one_line (text : string) (width : nat) : list string := [text].

Definition str_table (x : float) : string :=
  if PrimFloat.eqb x 0%float then "0.0"
  else if PrimFloat.eqb x 1%float then "1.0"
  else if PrimFloat.eqb x 10%float then "10.0"
  else if PrimFloat.eqb x (-5)%float then "-5.0"
  else "0.5".

(** ** Further readings of the stored structure *)

(** The identities the traversal visits, depth first and parents first,
    with [limit] activations at hand. *)
Fixpoint preorder (h : heap) (limit : nat) (node : addr) : list addr :=
  match limit with
  | O => []
  | S limit' =>
      node :: flat_map (λ action, preorder h limit' (next_node action))
                       (actions_of h node)
  end.

(** The probability an edge label shows: none for a missing one and for
    zero alike. *)
Definition shown_probability (p : option float) : option float :=
  match p with
  | Some x => if float_truthy x then Some x else None
  | None => None
  end.

(** Two actions the traversal cannot tell apart: they may differ in their
    [description], and in a probability that is missing in one and zero in
    the other. *)
Definition same_action (a1 a2 : Action) : Prop :=
  name a1 = name a2
  ∧ shown_probability (probability a1) = shown_probability (probability a2)
  ∧ next_node a1 = next_node a2.

(** Two nodes the traversal cannot tell apart: they may differ in their
    [id], in the payoff of a non-terminal node, in the player of a terminal
    node, in a player that is missing, empty or "Unknown", and in actions
    that are missing in one and an empty list in the other. *)
Definition same_rendering (n1 n2 : GameNode) : Prop :=
  is_terminal n1 = is_terminal n2
  ∧ (if is_terminal n1 then payoff n1 = payoff n2
     else str_or (current_player_name n1) "Unknown"
          = str_or (current_player_name n2) "Unknown")
  ∧ Forall2 same_action (default [] (actions n1)) (default [] (actions n2)).

(** The chance node of [chance_heap] written differently: other [id]s and
    descriptions, the zero probability left out, a payoff on the root and a
    player on the leaves. *)
Definition chance_heap_variant : heap :=
  λ a, if (a =? 1)%N then
         {| id := "n0"; current_player_name := Some "Nature";
            is_terminal := false;
            actions := Some [{| name := "Left"; description := "unlikely";
                                probability := None; next_node := 2%N |};
                             {| name := "Right"; description := "certain";
                                probability := Some 1%float; next_node := 3%N |}];
            payoff := Some raise_payoff |}
       else
         {| id := "end"; current_player_name := Some "Company A";
            is_terminal := true; actions := Some []; payoff := None |}.

(** A structure that shares one terminal node between two actions. *)
Definition shared_leaf_heap : heap :=
  λ a, if (a =? 1)%N then pricing_root 2%N 2%N else leaf (Some raise_payoff).

(** ** schemas.py: the analysis *)

Inductive PlayerRole := DECISION_MAKER | NATURE.

(** [role.value] *)
Definition PlayerRole_value (r : PlayerRole) : string :=
  match r with
  | DECISION_MAKER => "decision_maker"
  | NATURE => "nature"
  end.

Module Player.
Record Player := {
  name : string;
  role : PlayerRole;
  description : string
}.
End Player.

Inductive GameType := Extensive_Form | Normal_Form.

Record GameTheoryAnalysis := {
  title : string;
  strategic_summary : string;
  players : list Player.Player;
  game_type : GameType;
  game_tree : option addr;
  confidence_score : Z;
  nash_equilibrium_explanation : string;
  actual_events_comparison : string
}.

(** ** backend.py and the script of app.py *)

Record ScreenerOutput := {
  is_strategic_game : bool;
  reasoning : string
}.

(** [text[:n]].  A place of a [string] holds one byte, so this is Python's
    slice on ASCII text. *)
Fixpoint slice_to (n : nat) (text : string) : string :=
  match n, text with
  | S n', String c text' => String c (slice_to n' text')
  | _, _ => ""
  end.

(** What the program does to the outside, in order: the calls of the
    OpenAI and trafilatura libraries, the Streamlit elements it shows and
    the lines it prints. *)
Inductive call :=
| FromOpenAI (api_key : string)
| ChatCreate (model response_model : string) (messages : list (string * string))
| FetchUrl (url : string)
| Extract (downloaded : string).

(** Where a Streamlit element goes. *)
Inductive area :=
| Page
| Sidebar
| Col1
| Col2
| Within (outer : area) (expander : string).

Inductive element :=
| st_set_page_config (layout page_title : string)
| st_title (body : string)
| st_header (body : string)
| st_subheader (body : string)
| st_write (body : string)
| st_markdown (body : string)
| st_info (body : string)
| st_warning (body : string)
| st_error (body : string)
| st_success (body : string)
| st_divider
| st_spinner (text : string)
| st_columns (spec : list nat)
| st_text_input (label : string)
| st_radio (label : string) (options : list string)
| st_button (label : string)
| st_text_area (label value : string)
| st_expander (label : string)
| st_graphviz_chart (g : Digraph).

Inductive event :=
| Call (c : call)
| Show (a : area) (e : element)
| Print (line : string).

Inductive result (E A : Type) :=
| Done (a : A)
| Failed (e : E).
Arguments Done {E A} a.
Arguments Failed {E A} e.

(** The exceptions of the agent: the [RuntimeError]s backend.py raises,
    what a library raises, and what the traversal raises. *)
Inductive py_exn (L : Type) :=
| RuntimeError (msg : string)
| LibraryError (e : L)
| TraversalError (e : exn).
Arguments RuntimeError {L} msg.
Arguments LibraryError {L} e.
Arguments TraversalError {L} e.

(** A computation that acts on the outside and returns or raises. *)
Definition IO (E A : Type) := list event → result E A * list event.

Definition io_ret {E A} (a : A) : IO E A := λ log, (Done a, log).

Definition io_bind {E A B} (c : IO E A) (k : A → IO E B) : IO E B :=
  λ log, match c log with
         | (Done a, log') => k a log'
         | (Failed e, log') => (Failed e, log')
         end.

Definition io_raise {E A} (e : E) : IO E A := λ log, (Failed e, log).

(** [try: body except Exception as e: handler(e)] *)
Definition io_try {E A} (body : IO E A) (handler : E → IO E A) : IO E A :=
  λ log, match body log with
         | (Done a, log') => (Done a, log')
         | (Failed e, log') => handler e log'
         end.

Definition io_event {E} (ev : event) : IO E unit :=
  λ log, (Done tt, log ++ [ev]).

Definition show {E} (a : area) (e : element) : IO E unit := io_event (Show a e).
Definition print {E} (line : string) : IO E unit := io_event (Print line).

Declare Scope io_scope.
Notation "x <- c ;; k" := (io_bind c (λ x, k))
  (at level 100, c at next level, right associativity) : io_scope.
Notation "c ;; k" := (io_bind c (λ _, k))
  (at level 100, right associativity) : io_scope.

Fixpoint io_for_each {E A} (l : list A) (body : A → IO E unit) : IO E unit :=
  match l with
  | [] => io_ret tt
  | x :: l' => io_bind (body x) (λ _, io_for_each l' body)
  end.

Inductive InputType := URL | Raw_Text.

(** What the user has entered in the widgets when the script runs. *)
Record inputs := {
  typed_api_key : string;
  input_type : InputType;
  typed_url : string;
  fetch_clicked : bool;
  pasted_text : string;
  run_clicked : bool
}.

Section Agent.

Local Open Scope io_scope.

(** The libraries: text wrapping and float formatting as before; the
    OpenAI client object, its construction from a key and its two
    structured chat completions; trafilatura's download and extraction;
    the exceptions libraries raise and the text [str(e)] of an exception.
    The two system prompts are fixed texts of backend.py. *)
Variable textwrap_wrap : string → nat → list string.
Variable float_str : float → string.
Variable Client : Type.
Variable lib_exn : Type.
Variable lib_exn_str : lib_exn → string.
Variable traversal_exn_str : exn → string.
Variable from_openai : string → result lib_exn Client.
Variable create_screener : Client → list (string * string) → result lib_exn ScreenerOutput.
Variable create_analysis : Client → list (string * string) → result lib_exn GameTheoryAnalysis.
Variable fetch_url : string → option string.
Variable extract : string → option string.
Variable screener_prompt modeler_prompt : string.

Definition exn_str (e : py_exn lib_exn) : string :=
  match e with
  | RuntimeError msg => msg
  | LibraryError e => lib_exn_str e
  | TraversalError e => traversal_exn_str e
  end.

(** The module-level initialisation of [client] in backend.py, from the
    value of [os.getenv("OPENAI_API_KEY")]. *)
Definition init_client (env_key : option string) : IO (py_exn lib_exn) (option Client) :=
  match env_key with
  | Some api_key =>
      if str_truthy api_key then
        io_event (Call (FromOpenAI api_key)) ;;
        match from_openai api_key with
        | Done c => io_ret (Some c)
        | Failed e =>
            print ("Warning: OpenAI client could not be initialized. Error: "
                   +:+ lib_exn_str e) ;;
            io_ret None
        end
      else io_ret None
  | None => io_ret None
  end.

Definition fetch_article (url : string) : IO (py_exn lib_exn) (option string) :=
  io_event (Call (FetchUrl url)) ;;
  match fetch_url url with
  | Some downloaded =>
      if str_truthy downloaded then
        io_event (Call (Extract downloaded)) ;;
        io_ret (extract downloaded)
      else io_ret None
  | None => io_ret None
  end.

(** The messages of the two chat completions. *)
Definition screener_messages (text : string) : list (string * string) :=
  [("system", screener_prompt);
   ("user", "Analyze this text: " +:+ slice_to 4000 text)].

Definition modeler_messages (text : string) : list (string * string) :=
  [("system", modeler_prompt); ("user", "Model this text: " +:+ text)].

Definition analyze_text_to_game (client : option Client) (text : string)
    (api_key : option string)
  : IO (py_exn lib_exn) (option GameTheoryAnalysis * string) :=
  current_client <-
    match client, api_key with
    | None, Some k =>
        if str_truthy k then
          io_event (Call (FromOpenAI k)) ;;
          match from_openai k with
          | Done c => io_ret (Some c)
          | Failed e =>
              io_raise (RuntimeError
                ("Failed to initialize OpenAI client with provided key: "
                 +:+ lib_exn_str e))
          end
        else io_ret None
    | _, _ => io_ret client
    end ;;
  match current_client with
  | None =>
      io_raise (RuntimeError
        "LLM Client not initialized. Please check your API keys.")
  | Some c =>
      io_event (Call (ChatCreate "gpt-4o" "ScreenerOutput"
                        (screener_messages text))) ;;
      match create_screener c (screener_messages text) with
      | Failed e => io_raise (LibraryError e)
      | Done screener_response =>
          if negb (is_strategic_game screener_response) then
            io_ret (None, reasoning screener_response)
          else
            io_event (Call (ChatCreate "gpt-4o" "GameTheoryAnalysis"
                              (modeler_messages text))) ;;
            match create_analysis c (modeler_messages text) with
            | Failed e => io_raise (LibraryError e)
            | Done game_analysis =>
                io_ret (Some game_analysis, reasoning screener_response)
            end
      end
  end.

(** *** app.py: the sidebar

    The block under [with st.sidebar:], run with the value of the
    environment variable, the user's inputs and the article text of the
    session state (none on the first run); it gives the API key, the
    article text it leaves in the session state and the state of the
    "Generate Game Model" button. *)
Definition sidebar (env_key : option string) (inp : inputs)
    (session_text : option string)
  : IO (py_exn lib_exn) (string * string * bool) :=
  show Sidebar (st_header "Configuration") ;;
  api_key <-
    (if str_truthy (default "" env_key) then io_ret (default "" env_key)
     else show Sidebar (st_text_input "OpenAI API Key") ;;
          io_ret (typed_api_key inp)) ;;
  show Sidebar st_divider ;;
  show Sidebar (st_header "Input Source") ;;
  show Sidebar (st_radio "Choose Input:" ["URL"; "Raw Text"]) ;;
  let article_text := default "" session_text in
  article_text <-
    match input_type inp with
    | URL =>
        show Sidebar (st_text_input "Enter Article URL") ;;
        show Sidebar (st_button "Fetch & Analyze") ;;
        article_text <-
          (if fetch_clicked inp then
             show Sidebar (st_spinner "Fetching article...") ;;
             fetched_text <- fetch_article (typed_url inp) ;;
             if str_truthy (default "" fetched_text) then
               show Sidebar (st_success "Article fetched successfully!") ;;
               io_ret (default "" fetched_text)
             else
               show Sidebar (st_error
                 "Failed to fetch article. Please check the URL or try raw text.") ;;
               io_ret article_text
           else io_ret article_text) ;;
        (if str_truthy article_text then
           show Sidebar (st_expander "Show Content") ;;
           show (Within Sidebar "Show Content")
                (st_write (slice_to 500 article_text +:+ "..."))
         else io_ret tt) ;;
        io_ret article_text
    | Raw_Text =>
        show Sidebar (st_text_area "Paste Article Text Here" article_text) ;;
        io_ret (pasted_text inp)
    end ;;
  show Sidebar (st_button "Generate Game Model") ;;
  io_ret (api_key, article_text, run_clicked inp).

(** *** app.py: the main interface *)

(** The left column: the narrative analysis, the solution and the players. *)
Definition show_analysis (response : GameTheoryAnalysis) : IO (py_exn lib_exn) unit :=
  show Col1 (st_subheader "Narrative Analysis") ;;
  show Col1 (st_write ("**Title:** " +:+ title response)) ;;
  show Col1 (st_write ("**Strategic Summary:** " +:+ strategic_summary response)) ;;
  show Col1 (st_write ("**Confidence Score:** "
                       +:+ pretty (confidence_score response) +:+ "/100")) ;;
  show Col1 (st_markdown "---") ;;
  show Col1 (st_subheader "Game Solution") ;;
  show Col1 (st_info ("**Nash Equilibrium:** "
                      +:+ nash_equilibrium_explanation response)) ;;
  show Col1 (st_warning ("**Model vs. Reality:** "
                         +:+ actual_events_comparison response)) ;;
  show Col1 (st_subheader "Players") ;;
  io_for_each (players response) (λ p,
    show Col1 (st_markdown ("- **" +:+ Player.name p +:+ "** ("
                            +:+ PlayerRole_value (Player.role p) +:+ "): "
                            +:+ Player.description p))).

(** The right column: the game tree, drawn from the store [h] with [limit]
    activations at hand. *)
Definition show_game_tree (h : heap) (limit : nat) (response : GameTheoryAnalysis)
  : IO (py_exn lib_exn) unit :=
  show Col2 (st_subheader "Game Tree Visualization") ;;
  match game_tree response with
  | Some root =>
      match (draw_game_tree textwrap_wrap float_str limit (Some root) h).1 with
      | Returned graph =>
          show Col2 (st_graphviz_chart graph) ;;
          show Col2 (st_expander "🔍 View Raw Text / Zoom Details") ;;
          show (Within Col2 "🔍 View Raw Text / Zoom Details")
               (st_info "If the tree is too large, use browser zoom or right-click 'Open Image in New Tab'.")
      | Raised e => io_raise (TraversalError e)
      end
  | None => show Col2 (st_warning "No game tree generated.")
  end.

Definition main_interface (client : option Client) (h : heap) (limit : nat)
    (run_btn : bool) (article_text api_key : string)
  : IO (py_exn lib_exn) unit :=
  if run_btn && str_truthy article_text then
    show Page (st_spinner "Agent is modeling the game...") ;;
    io_try
      (analysis <- analyze_text_to_game client article_text (Some api_key) ;;
       match analysis with
       | (Some response, _) =>
           show Page (st_columns [1; 2]%nat) ;;
           show_analysis response ;;
           show_game_tree h limit response
       | (None, reasoning) =>
           show Page (st_warning "No strategic game detected in the text.") ;;
           show Page (st_info ("**Agent Reasoning:** " +:+ reasoning))
       end)
      (λ e, show Page (st_error ("An error occurred during analysis: "
                                 +:+ exn_str e)))
  else if run_btn && negb (str_truthy article_text) then
    show Page (st_error "Please provide input text first.")
  else io_ret tt.

(** The first run of the script of app.py in a process: the import of
    backend.py runs its module-level code, which initialises the client,
    then the page is built from top to bottom.  It gives the article text
    left in the session state. *)
Definition app (env_key : option string) (inp : inputs)
    (session_text : option string) (h : heap) (limit : nat)
  : IO (py_exn lib_exn) string :=
  client <- init_client env_key ;;
  show Page (st_set_page_config "wide" "News -> Game Theory Agent") ;;
  show Page (st_title "🕵️ Game Theory Analyzer Agent") ;;
  show Page (st_markdown "Turns news narratives into formal Extensive Form Games.") ;;
  entered <- sidebar env_key inp session_text ;;
  let '(api_key, article_text, run_btn) := entered in
  main_interface client h limit run_btn article_text api_key ;;
  io_ret article_text.

End Agent.

(** ** verify.py *)

(** [str.isspace] on the ASCII characters. *)
Definition is_space (c : ascii) : bool :=
  let n := nat_of_ascii c in
  ((9 <=? n)%nat && (n <=? 13)%nat) || ((28 <=? n)%nat && (n <=? 32)%nat).

Fixpoint lstrip (s : string) : string :=
  match s with
  | EmptyString => EmptyString
  | String c s' => if is_space c then lstrip s' else s
  end.

Fixpoint rstrip (s : string) : string :=
  match s with
  | EmptyString => EmptyString
  | String c s' =>
      match rstrip s' with
      | EmptyString => if is_space c then EmptyString else String c EmptyString
      | r => String c r
      end
  end.

(** [s.strip()] *)
Definition strip (s : string) : string := rstrip (lstrip s).

Definition sample_text : string := "
    Two countries, A and B, are in an arms race. 
    If both build nukes, they are safe but poor (-10, -10). 
    If one builds and the other doesn't, the builder dominates (+20, -50). 
    If neither builds, they are rich and safe (+10, +10).
    ".

Section Verify.

Local Open Scope io_scope.

(** The libraries as for the agent, and the text Python gives a list of
    strings inside an f-string. *)
Variable Client : Type.
Variable lib_exn : Type.
Variable lib_exn_str : lib_exn → string.
Variable traversal_exn_str : exn → string.
Variable from_openai : string → result lib_exn Client.
Variable create_screener : Client → list (string * string) → result lib_exn ScreenerOutput.
Variable create_analysis : Client → list (string * string) → result lib_exn GameTheoryAnalysis.
Variable screener_prompt modeler_prompt : string.
Variable list_repr : list string → string.

(** [test_backend], with the client of backend.py, the value of
    ["OPENAI_API_KEY"] in [os.environ] (none when it is not there) and the
    store that holds the tree of the result. *)
Definition test_backend (client : option Client) (environ_key : option string)
    (h : heap) : IO (py_exn lib_exn) unit :=
  print "Testing Backend Logic..." ;;
  match environ_key with
  | None =>
      print "WARNING: OPENAI_API_KEY not found in environment. Skipping live LLM test." ;;
      print "To run the full test, set the environment variable and run this script again."
  | Some _ =>
      print ("Input Text: " +:+ strip sample_text) ;;
      io_try
        (analysis <- analyze_text_to_game Client lib_exn lib_exn_str from_openai
                       create_screener create_analysis screener_prompt
                       modeler_prompt client sample_text None ;;
         match analysis with
         | (Some result, _) =>
             print (LF +:+ "SUCCESS: Game Detected!") ;;
             print ("Title: " +:+ title result) ;;
             print ("Summary: " +:+ strategic_summary result) ;;
             print ("Players: " +:+ list_repr (map Player.name (players result))) ;;
             print ("Tree Root Node ID:" +:+ " " +:+
                    match game_tree result with
                    | Some root => id (h root)
                    | None => "None"
                    end)
         | (None, reason) =>
             print (LF +:+ "RESULT: No Game Detected. Reason: " +:+ reason)
         end)
        (λ e, print (LF +:+ "ERROR during analysis: "
                     +:+ exn_str lib_exn lib_exn_str traversal_exn_str e))
  end.

(** The script: the import of backend.py initialises the client, then
    [test_backend] runs. *)
Definition verify (environ_key : option string) (h : heap)
  : IO (py_exn lib_exn) unit :=
  client <- init_client Client lib_exn lib_exn_str from_openai environ_key ;;
  test_backend client environ_key h.

End Verify.

(** A stand-in for the text of a list of names. *)
Definition names_joined (names : list string) : string :=
  "[" +:+ String.concat ", " names +:+ "]".

(** Stand-ins for the libraries on the examples: no key is accepted, the
    screener's answer is given, the modeler answers with a fixed analysis,
    and no page can be downloaded. *)
Definition no_client (api_key : string) : result string unit :=
  Failed "invalid key".
Definition any_client (api_key : string) : result string unit := Done tt.
Definition screener_says (strategic : bool) (c : unit)
    (messages : list (string * string)) : result string ScreenerOutput :=
  Done {| is_strategic_game := strategic; reasoning := "two sides" |}.
Definition example_analysis (tree : option addr) : GameTheoryAnalysis :=
  {| title := "Price war"; strategic_summary := "Each price depends on the other";
     players := [{| Player.name := "Company A"; Player.role := DECISION_MAKER;
                    Player.description := "a seller" |}];
     game_type := Extensive_Form; game_tree := tree; confidence_score := 80;
     nash_equilibrium_explanation := "Both lower";
     actual_events_comparison := "Both lowered" |}.
Definition modeler_says (tree : option addr) (c : unit)
    (messages : list (string * string)) : result string GameTheoryAnalysis :=
  Done (example_analysis tree).
Definition no_page (url : string) : option string := None.
Definition msg_itself (e : string) : string := e.
Definition recursion_msg (e : exn) : string := "maximum recursion depth exceeded".
Definition raw_text_run (text : string) : inputs :=
  {| typed_api_key := ""; input_type := Raw_Text; typed_url := "";
     fetch_clicked := false; pasted_text := text; run_clicked := true |}.


(** * Properties *)

(** ** The monad *)

(** A loop whose every iteration appends [out x] and returns, returns after
    appending all of them in order. *)
Lemma for_each_returns {A} (l : list A) (body : A → M unit)
    (out : A → list stmt) (h : heap) (w : world) :
  (∀ x w1, x ∈ l → objects w1 = h →
     body x w1 = (Returned tt, World h (dot w1 ++ out x))) →
  objects w = h →
  for_each l body w = (Returned tt, World h (dot w ++ flat_map out l)).
Proof.
  revert w. induction l as [|x l IH]; intros w Hbody Hw; simpl.
  - rewrite app_nil_r. destruct w; simpl in *; by subst.
  - unfold bind. rewrite Hbody by (done || left).
    rewrite IH; [|intros; apply Hbody; (done || by right)|done].
    simpl. by rewrite <- app_assoc.
Qed.

(** A loop with an iteration that raises on the store [h], raises when the
    iterations before it keep the store. *)
Lemma for_each_raises {A} (l : list A) (body : A → M unit) (x : A)
    (h : heap) (w : world) :
  x ∈ l →
  (∀ y w1, objects (body y w1).2 = objects w1) →
  (∀ w1, objects w1 = h → (body x w1).1 = Raised RecursionError) →
  objects w = h →
  (for_each l body w).1 = Raised RecursionError.
Proof.
  intros Hx Hkeep Hraise. revert w.
  induction l as [|y l IH]; intros w Hw; [by apply elem_of_nil in Hx|].
  simpl. unfold bind.
  apply elem_of_cons in Hx as [<-|Hx].
  - specialize (Hraise w Hw). destruct (body x w) as [[[]|e] w1]; simpl in *.
    + discriminate.
    + by destruct e.
  - specialize (Hkeep y w).
    destruct (body y w) as [[[]|e] w1]; simpl in *.
    + apply IH; [done|congruence].
    + by destruct e.
Qed.

Lemma forallb_false {A} (f : A → bool) (l : list A) :
  forallb f l = false → ∃ x, x ∈ l ∧ f x = false.
Proof.
  induction l as [|x l IH]; simpl; [discriminate|].
  destruct (f x) eqn:Hfx; simpl.
  - intros (y & Hy & Hfy)%IH. exists y. split; [by right|done].
  - intros _. exists x. split; [by left|done].
Qed.

(** A loop whose iterations keep the store, keeps the store. *)
Lemma for_each_objects {A} (l : list A) (body : A → M unit) (w : world) :
  (∀ x w1, objects (body x w1).2 = objects w1) →
  objects (for_each l body w).2 = objects w.
Proof.
  intros Hbody. revert w. induction l as [|x l IH]; intros w; simpl; [done|].
  unfold bind. specialize (Hbody x w).
  destruct (body x w) as [[[]|e] w1]; simpl in *; [by rewrite IH|done].
Qed.

(** ** The traversal *)

Section Traversal.

Variable textwrap_wrap : string → nat → list string.
Variable float_str : float → string.

Local Abbreviation wrap_text := (wrap_text textwrap_wrap).
Local Abbreviation action_lbl := (action_lbl float_str).
Local Abbreviation node_label := (node_label textwrap_wrap float_str).
Local Abbreviation enter := (enter textwrap_wrap float_str).
Local Abbreviation trace := (trace textwrap_wrap float_str).
Local Abbreviation add_nodes_edges := (add_nodes_edges textwrap_wrap float_str).
Local Abbreviation draw_game_tree := (draw_game_tree textwrap_wrap float_str).

(** One activation: append the node's own statements, then loop over the
    actions. *)
Lemma add_nodes_edges_unfold limit node parent_id edge_label w :
  add_nodes_edges (S limit) node parent_id edge_label w =
  for_each (actions_of (objects w) node)
    (λ action, add_nodes_edges limit (next_node action)
                 (Some (node_id_of node)) (action_lbl action))
    (World (objects w) (dot w ++ enter (objects w) node parent_id edge_label)).
Proof.
  unfold actions_of, enter. simpl.
  unfold bind, deref, dot_node, dot_edge, emit, ret. simpl.
  destruct parent_id as [p|]; [destruct (str_truthy p)|]; simpl;
    destruct (actions (objects w node)) as [[|action l]|]; simpl;
    rewrite <- ?app_assoc; reflexivity.
Qed.

(** The traversal only reads the store. *)
Lemma add_nodes_edges_objects limit node parent_id edge_label w :
  objects (add_nodes_edges limit node parent_id edge_label w).2 = objects w.
Proof.
  revert node parent_id edge_label w.
  induction limit as [|limit IH]; intros node parent_id edge_label w; [done|].
  rewrite add_nodes_edges_unfold, for_each_objects; [done|].
  intros; apply IH.
Qed.

(** With enough activations the traversal returns, having appended [trace]. *)
Lemma add_nodes_edges_fits limit node parent_id edge_label w :
  fits (objects w) limit node = true →
  add_nodes_edges limit node parent_id edge_label w =
  (Returned tt,
   World (objects w) (dot w ++ trace (objects w) limit node parent_id edge_label)).
Proof.
  revert node parent_id edge_label w.
  induction limit as [|limit IH]; intros node parent_id edge_label w Hfits;
    [discriminate|].
  rewrite add_nodes_edges_unfold. simpl in Hfits.
  rewrite forallb_forall in Hfits.
  rewrite for_each_returns with (h := objects w)
    (out := λ action, trace (objects w) limit (next_node action)
                        (Some (node_id_of node)) (action_lbl action)); [|..|done].
  - simpl. by rewrite <- app_assoc.
  - intros action w1 Hin Hw1. rewrite <- Hw1 in Hfits, Hin |- *.
    apply IH, Hfits. apply list_elem_of_In in Hin. exact Hin.
Qed.

(** Without enough activations it raises [RecursionError]. *)
Lemma add_nodes_edges_overflows limit node parent_id edge_label w :
  fits (objects w) limit node = false →
  (add_nodes_edges limit node parent_id edge_label w).1 = Raised RecursionError.
Proof.
  revert node parent_id edge_label w.
  induction limit as [|limit IH]; intros node parent_id edge_label w Hfits;
    [done|].
  rewrite add_nodes_edges_unfold. simpl in Hfits.
  apply forallb_false in Hfits as (action & Hin & Hfits).
  apply for_each_raises with (x := action) (h := objects w); [done|..|done].
  - intros; apply add_nodes_edges_objects.
  - intros w1 Hw1. apply IH. by rewrite Hw1.
Qed.

(** [draw_game_tree] on a root: the header, then the statements of the
    traversal; the store comes back as it was. *)
Lemma draw_game_tree_root limit root h :
  draw_game_tree limit (Some root) h =
  (if fits h limit root then Returned (header ++ trace h limit root None "")
   else Raised RecursionError, h).
Proof.
  unfold draw_game_tree, dot_attr, emit, bind. simpl.
  destruct (fits h limit root) eqn:Hfits.
  - rewrite add_nodes_edges_fits by done. reflexivity.
  - pose proof (add_nodes_edges_overflows limit root None ""
                  (World h header) Hfits) as Hraise.
    pose proof (add_nodes_edges_objects limit root None ""
                  (World h header)) as Hkeep.
    unfold header in *.
    destruct (add_nodes_edges _ _ _ _ _) as [[[]|e] w1]; simpl in *;
      [discriminate|]. destruct e. by rewrite Hkeep.
Qed.

Lemma draw_game_tree_None limit h :
  draw_game_tree limit None h = (Returned header, h).
Proof. reflexivity. Qed.

End Traversal.

(** ** Depth, acyclicity and cycles *)

Lemma fits_mono h n m node :
  fits h n node = true → (n ≤ m)%nat → fits h m node = true.
Proof.
  revert m node. induction n as [|n IH]; intros m node Hfits Hle; [done|].
  destruct m as [|m]; [lia|]. simpl in *.
  rewrite forallb_forall in Hfits |- *.
  intros action Hin. apply IH; [by apply Hfits|lia].
Qed.

Lemma fits_acyclic h n node : fits h n node = true → acyclic h node.
Proof.
  revert node. induction n as [|n IH]; intros node Hfits; [done|].
  simpl in Hfits. rewrite forallb_forall in Hfits.
  constructor. intros b (action & Hin & <-).
  apply IH, Hfits. by apply list_elem_of_In.
Qed.

(** Finitely many activations suffice for each of finitely many actions,
    hence for all of them at once. *)
Lemma fits_all h (l : list Action) :
  (∀ action, action ∈ l → ∃ n, fits h n (next_node action) = true) →
  ∃ n, ∀ action, action ∈ l → fits h n (next_node action) = true.
Proof.
  induction l as [|x l IH]; intros Hall.
  - exists 0. intros action Hin. by apply elem_of_nil in Hin.
  - destruct (Hall x) as [n1 Hn1]; [by left|].
    destruct IH as [n2 Hn2]; [intros; apply Hall; by right|].
    exists (n1 `max` n2). intros action [->|Hin]%elem_of_cons.
    + eapply fits_mono; [done|lia].
    + eapply fits_mono; [by apply Hn2|lia].
Qed.

Lemma acyclic_fits h node : acyclic h node → ∃ n, fits h n node = true.
Proof.
  induction 1 as [node _ IH].
  destruct (fits_all h (actions_of h node)) as [n Hn].
  { intros action Hin. apply IH. by exists action. }
  exists (S n). simpl. rewrite forallb_forall.
  intros action Hin. apply Hn. by apply list_elem_of_In.
Qed.

(** A node from which a cycle can be reached has a child with the same
    property. *)
Lemma reaches_cycle_child h a c :
  rtc (child h) a c → tc (child h) c c →
  ∃ b, child h a b ∧ rtc (child h) b c.
Proof.
  intros Hreach Hcycle. destruct Hreach as [x|x y z Hxy Hyz].
  - inversion Hcycle as [? ? Hxx|? y ? Hxy Hyx]; subst.
    + by exists x.
    + exists y. split; [done|by apply tc_rtc].
  - by exists y.
Qed.

(** No number of activations suffices below a node that reaches a cycle. *)
Lemma cycle_never_fits h n a c :
  rtc (child h) a c → tc (child h) c c → fits h n a = false.
Proof.
  revert a. induction n as [|n IH]; intros a Hreach Hcycle; [done|].
  destruct (reaches_cycle_child h a c) as (b & (action & Hin & <-) & Hb);
    [done..|].
  simpl. destruct (forallb _ _) eqn:Hall; [|done].
  rewrite forallb_forall in Hall.
  rewrite <- (IH (next_node action)) by done.
  symmetry. apply Hall. by apply list_elem_of_In.
Qed.

(** ** Node identifiers *)

Lemma node_id_of_inj a b : node_id_of a = node_id_of b → a = b.
Proof. apply (inj pretty). Qed.

Lemma pretty_N_go_nonempty x s : str_truthy s = true → str_truthy (pretty_N_go x s) = true.
Proof.
  revert s. induction (N.lt_wf_0 x) as [x _ IH]; intros s Hs.
  destruct (decide (x = 0)%N) as [->|Hx]; [by rewrite pretty_N_go_0|].
  rewrite pretty_N_go_step by lia.
  apply IH; [apply N.div_lt; lia|done].
Qed.

(** An identifier is never the empty string, so [if parent_id:] holds for
    every parent. *)
Lemma node_id_of_truthy a : str_truthy (node_id_of a) = true.
Proof.
  unfold node_id_of, pretty, pretty_N.
  case_decide as Ha; [done|].
  rewrite pretty_N_go_step by lia. by apply pretty_N_go_nonempty.
Qed.

(** ** The statements of a returning traversal *)

Lemma edges_app g1 g2 : edges (g1 ++ g2) = edges g1 ++ edges g2.
Proof. apply omap_app. Qed.

Lemma names_of_declared n body : n ∈ names_of body → declared n body.
Proof.
  unfold names_of. rewrite list_elem_of_omap.
  intros ([] & Hin & Heq); simplify_eq. by eexists _, _.
Qed.

Lemma closed_after_mono seen seen' body :
  (∀ x, x ∈ seen → x ∈ seen') → closed_after seen body → closed_after seen' body.
Proof.
  revert seen seen'. induction body as [|[k v|n l a|t hd l a] body IH];
    intros seen seen' Hsub; simpl; [done|by apply IH|..].
  - apply IH. intros x [->|Hx]%elem_of_cons; [by left|right; by apply Hsub].
  - intros (Ht & Hhd & Hbody). repeat split; [by apply Hsub..|by eapply IH].
Qed.

Lemma closed_after_app seen body1 body2 :
  closed_after seen (body1 ++ body2) ↔
  closed_after seen body1 ∧ closed_after (rev (names_of body1) ++ seen) body2.
Proof.
  revert seen. induction body1 as [|[k v|n l a|t hd l a] body1 IH];
    intros seen; simpl.
  - tauto.
  - apply IH.
  - rewrite IH. unfold names_of at 2. simpl. fold (names_of body1).
    by rewrite <- app_assoc.
  - rewrite IH. unfold names_of at 2. simpl. fold (names_of body1). tauto.
Qed.

(** Before an edge statement of a closed body, both its ends are declared. *)
Lemma closed_after_split body pre t hd l a post :
  closed_after [] body → body = pre ++ EdgeStmt t hd l a :: post →
  declared t pre ∧ declared hd pre.
Proof.
  intros Hclosed ->. apply closed_after_app in Hclosed as [_ Hclosed].
  simpl in Hclosed. destruct Hclosed as (Ht & Hhd & _).
  rewrite app_nil_r in Ht, Hhd.
  split; apply names_of_declared; by apply list_elem_of_In, in_rev, list_elem_of_In.
Qed.

Lemma elem_of_actions_truthy h a action :
  action ∈ actions_of h a → list_truthy (actions (h a)) = true.
Proof.
  unfold actions_of. destruct (actions (h a)) as [[|x l]|]; simpl; [|done|];
    intros Hin; by apply elem_of_nil in Hin.
Qed.

Section Output.

Variable textwrap_wrap : string → nat → list string.
Variable float_str : float → string.
Variable h : heap.

Local Abbreviation wrap_text := (wrap_text textwrap_wrap).
Local Abbreviation action_lbl := (action_lbl float_str).
Local Abbreviation node_label := (node_label textwrap_wrap float_str).
Local Abbreviation enter := (enter textwrap_wrap float_str h).
Local Abbreviation trace := (trace textwrap_wrap float_str h).
Local Abbreviation action_edge := (action_edge textwrap_wrap float_str).

(** The statements of the loop of [node]. *)
Local Abbreviation below limit node :=
  (flat_map (λ action, trace limit (next_node action)
                         (Some (node_id_of node)) (action_lbl action))).

Lemma trace_S limit node parent_id edge_label :
  trace (S limit) node parent_id edge_label =
  enter node parent_id edge_label ++ below limit node (actions_of h node).
Proof. reflexivity. Qed.

(** The activation of a child starts with its node statement, followed by
    the edge from its parent. *)
Lemma trace_child limit node action :
  ∃ rest,
    trace (S limit) (next_node action) (Some (node_id_of node)) (action_lbl action)
    = NodeStmt (node_id_of (next_node action)) (node_label (h (next_node action)))
               (node_attrs (h (next_node action)))
      :: EdgeStmt (node_id_of node) (node_id_of (next_node action))
                  (wrap_text (action_lbl action) 15) [("fontsize", "9")]
      :: rest.
Proof.
  rewrite trace_S. unfold enter. rewrite node_id_of_truthy. by eexists.
Qed.

(** Every edge is declared after both its ends. *)
Lemma trace_closed limit node parent_id edge_label seen :
  (∀ p, parent_id = Some p → p ∈ seen) →
  closed_after seen (trace limit node parent_id edge_label).
Proof.
  revert node parent_id edge_label seen.
  induction limit as [|limit IH]; intros node parent_id edge_label seen Hp;
    [done|].
  rewrite trace_S. unfold enter. simpl.
  assert (∀ l seen', node_id_of node ∈ seen' →
            closed_after seen' (below limit node l)) as Hloop.
  { induction l as [|action l IHl]; intros seen' Hin; simpl; [done|].
    apply closed_after_app. split.
    - apply IH. by intros p [= <-].
    - apply IHl. apply elem_of_app. by right. }
  destruct parent_id as [p|]; [destruct (str_truthy p)|]; simpl.
  - repeat split; [right; by apply Hp|left|apply Hloop; left].
  - apply Hloop; left.
  - apply Hloop; left.
Qed.

(** The tail of every edge is the parent handed to the activation or a
    node below it that has actions. *)
Lemma trace_edge_tail limit node parent_id edge_label t hd l :
  (t, hd, l) ∈ edges (trace limit node parent_id edge_label) →
  parent_id = Some t
  ∨ ∃ b, t = node_id_of b ∧ list_truthy (actions (h b)) = true
         ∧ rtc (child h) node b.
Proof.
  revert node parent_id edge_label.
  induction limit as [|limit IH]; intros node parent_id edge_label;
    [by intros ?%elem_of_nil|].
  rewrite trace_S, edges_app, elem_of_app. intros [Hown|Hbelow].
  - left. unfold enter in Hown. simpl in Hown.
    destruct parent_id as [p|]; [destruct (str_truthy p)|]; simpl in Hown;
      try by apply elem_of_nil in Hown.
    apply list_elem_of_singleton in Hown. by simplify_eq.
  - right. unfold edges in Hbelow.
    apply list_elem_of_omap in Hbelow as (s & Hs & Hedge).
    apply list_elem_of_In, in_flat_map in Hs as (action & Hin & Hs).
    apply list_elem_of_In in Hin, Hs.
    destruct (IH (next_node action) (Some (node_id_of node)) (action_lbl action))
      as [[= <-]|(b & -> & Hb & Hreach)].
    { unfold edges. apply list_elem_of_omap. by exists s. }
    + exists node. split; [done|]. split; [|done].
      by eapply elem_of_actions_truthy.
    + exists b. split; [done|]. split; [done|].
      eapply rtc_l; [|done]. by exists action.
Qed.

(** The edges of the actions of [node] appear in the order of the actions. *)
Lemma trace_own_edges limit node parent_id edge_label :
  fits h limit node = true →
  sublist (map (action_edge node) (actions_of h node))
          (edges (trace limit node parent_id edge_label)).
Proof.
  destruct limit as [|limit]; [done|]. simpl fits. rewrite forallb_forall.
  intros Hfits. rewrite trace_S, edges_app. apply sublist_inserts_l.
  induction (actions_of h node) as [|action l IHl]; simpl; [apply sublist_nil|].
  rewrite edges_app. change (?x :: ?l) with ([x] ++ l) at 1.
  apply sublist_app; [|apply IHl; intros; apply Hfits; by right].
  destruct limit as [|limit]; [by specialize (Hfits action (or_introl eq_refl))|].
  destruct (trace_child limit node action) as [rest ->]. simpl.
  apply sublist_skip, sublist_nil_l.
Qed.

(** The statements of a node below [node] are a segment of those of [node]. *)
Lemma trace_reaches limit node parent_id edge_label b :
  fits h limit node = true → rtc (child h) node b →
  ∃ m p lbl pre post,
    fits h m b = true ∧
    trace limit node parent_id edge_label = pre ++ trace m b p lbl ++ post.
Proof.
  intros Hfits Hreach. revert limit parent_id edge_label Hfits.
  induction Hreach as [node|node c b (action & Hin & <-) _ IH];
    intros limit parent_id edge_label Hfits.
  - exists limit, parent_id, edge_label, [], []. by rewrite app_nil_r.
  - destruct limit as [|limit]; [done|]. simpl in Hfits.
    rewrite forallb_forall in Hfits.
    destruct (IH limit (Some (node_id_of node)) (action_lbl action))
      as (m & p & lbl & pre & post & Hm & Htrace).
    { apply Hfits. by apply list_elem_of_In. }
    apply list_elem_of_split in Hin as (l1 & l2 & Hl).
    exists m, p, lbl.
    exists (enter node parent_id edge_label ++ below limit node l1 ++ pre),
           (post ++ below limit node l2).
    split; [done|].
    rewrite trace_S, Hl, flat_map_app. simpl. rewrite Htrace.
    by rewrite <- !app_assoc.
Qed.

(** Every node below [node] has its statement among those of [node]. *)
Lemma trace_node_stmt limit node parent_id edge_label b :
  fits h limit node = true → rtc (child h) node b →
  NodeStmt (node_id_of b) (node_label (h b)) (node_attrs (h b))
    ∈ trace limit node parent_id edge_label.
Proof.
  intros Hfits Hreach.
  destruct (trace_reaches limit node parent_id edge_label b Hfits Hreach)
    as (m & p & lbl & pre & post & Hm & ->).
  destruct m as [|m]; [done|]. rewrite trace_S. unfold enter. simpl.
  apply elem_of_app. right. left.
Qed.

(** Once the limit suffices, the statements no longer depend on it. *)
Lemma trace_limit_irrelevant n m node parent_id edge_label :
  fits h n node = true → fits h m node = true →
  trace n node parent_id edge_label = trace m node parent_id edge_label.
Proof.
  revert m node parent_id edge_label.
  induction n as [|n IH]; intros m node parent_id edge_label Hn Hm; [done|].
  destruct m as [|m]; [done|]. rewrite !trace_S. f_equal.
  simpl in Hn, Hm. rewrite forallb_forall in Hn, Hm.
  induction (actions_of h node) as [|action l IHl]; simpl; [done|].
  f_equal.
  - apply IH; [apply Hn|apply Hm]; by left.
  - apply IHl; intros; [apply Hn|apply Hm]; by right.
Qed.

End Output.

(** ** What [draw_game_tree] returns *)

Section Drawing.

Variable textwrap_wrap : string → nat → list string.
Variable float_str : float → string.

Local Abbreviation trace := (trace textwrap_wrap float_str).
Local Abbreviation draw_game_tree := (draw_game_tree textwrap_wrap float_str).

Lemma draw_game_tree_returned limit root h g h' :
  draw_game_tree limit (Some root) h = (Returned g, h') →
  fits h limit root = true ∧ g = header ++ trace h limit root None "" ∧ h' = h.
Proof.
  rewrite draw_game_tree_root.
  destruct (fits h limit root); [|discriminate]. by intros [= <- <-].
Qed.

(** On an acyclic structure every limit from some depth on returns. *)
Lemma acyclic_returns h root :
  acyclic h root →
  ∃ n, ∀ limit, (n ≤ limit)%nat →
    fits h limit root = true ∧
    draw_game_tree limit (Some root) h
      = (Returned (header ++ trace h limit root None ""), h).
Proof.
  intros [n Hn]%acyclic_fits. exists n. intros limit Hle.
  assert (fits h limit root = true) as Hfits by by eapply fits_mono.
  split; [done|]. by rewrite draw_game_tree_root, Hfits.
Qed.

Lemma draw_closed h limit root :
  closed_after [] (header ++ trace h limit root None "").
Proof. simpl. apply trace_closed. by intros p [=]. Qed.

End Drawing.

Lemma closed_edges_follow_nodes g : closed_after [] g → edges_follow_nodes g.
Proof. intros Hclosed pre t hd l a post. by apply closed_after_split. Qed.

Lemma declared_app_l n pre post : declared n pre → declared n (pre ++ post).
Proof. intros (l & a & Hin). exists l, a. apply elem_of_app. by left. Qed.

Lemma edges_follow_nodes_declared g t hd l :
  edges_follow_nodes g → (t, hd, l) ∈ edges g → declared t g ∧ declared hd g.
Proof.
  intros Hg Hin. apply list_elem_of_omap in Hin as (s & Hs & Hedge).
  destruct s as [| |t' hd' l' a]; simplify_eq.
  apply list_elem_of_split in Hs as (pre & post & ->).
  destruct (Hg pre t hd l a post eq_refl).
  split; by apply declared_app_l.
Qed.

Lemma actions_of_falsy h a :
  list_truthy (actions (h a)) = false → actions_of h a = [].
Proof. unfold actions_of. by destruct (actions (h a)) as [[|x l]|]. Qed.

(** ** The field validator *)

Lemma validate_choices_returns v : validate_choices v = Returned v.
Proof. unfold validate_choices. by destruct (negb (list_truthy v)). Qed.

(** * The claims *)

(** C1, as stated, fails: the source has no cycle detection and no
    [MalformedReference].  On the root whose single action leads back to
    the root, no library behaviour and no recursion limit make
    [draw_game_tree] do anything but run out of activations. *)
Lemma C1_root_loop_exhausts_every_limit :
  ¬ ∃ textwrap_wrap float_str limit,
      (draw_game_tree textwrap_wrap float_str limit (Some 1%N) loop_heap).1
      ≠ Raised RecursionError.
Proof.
  intros (textwrap_wrap & float_str & limit & Hother). apply Hother.
  rewrite draw_game_tree_root.
  rewrite (cycle_never_fits loop_heap limit 1%N 1%N); [done|apply rtc_refl|].
  apply tc_once. exists (mk_action "Wait" None 1%N). split; [left|done].
Qed.

(** C1, amended: when some node reachable from the root is its own
    descendant (an action's [next_node] leads back to the root or to
    another ancestor), [draw_game_tree] does not detect it: whatever the
    recursion limit, the traversal uses it up and raises [RecursionError],
    leaving the store as it was.  The only validation of the source,
    [validate_choices], does not follow [next_node] and returns the root's
    actions as given. *)
Theorem C1_cycle_raises_RecursionError textwrap_wrap float_str
    (h : heap) (root c : addr) (limit : nat) :
  rtc (child h) root c → tc (child h) c c →
  draw_game_tree textwrap_wrap float_str limit (Some root) h
    = (Raised RecursionError, h)
  ∧ validate_choices (actions (h root)) = Returned (actions (h root)).
Proof.
  intros Hreach Hcycle. split; [|apply validate_choices_returns].
  by rewrite draw_game_tree_root, (cycle_never_fits h limit root c).
Qed.

(** The theorem on the root that is its own child. *)
Lemma C1_cycle_raises_RecursionError_witness :
  draw_game_tree wrap_one_line str_table 1000 (Some 1%N) loop_heap
    = (Raised RecursionError, loop_heap)
  ∧ validate_choices (actions (loop_heap 1%N)) = Returned (actions (loop_heap 1%N)).
Proof.
  apply (C1_cycle_raises_RecursionError wrap_one_line str_table loop_heap
           1%N 1%N 1000).
  - apply rtc_refl.
  - apply tc_once. exists (mk_action "Wait" None 1%N). split; [left|reflexivity].
Defined.

(** C2, as stated, fails: with no root, [draw_game_tree] never raises. *)
Lemma C2_no_root_does_not_raise :
  ¬ ∃ textwrap_wrap float_str limit h e,
      (draw_game_tree textwrap_wrap float_str limit None h).1 = Raised e.
Proof. intros (textwrap_wrap & float_str & limit & h & e & Hraise). discriminate. Qed.

(** C2, amended: called with no root ([None]), [draw_game_tree] skips the
    traversal behind its [if root_node:] guard and returns the graph that
    holds the four layout attributes only: no node, no edge, and no error. *)
Theorem C2_no_root_returns_empty_graph textwrap_wrap float_str
    (limit : nat) (h : heap) :
  draw_game_tree textwrap_wrap float_str limit None h = (Returned header, h)
  ∧ nodes header = [] ∧ edges header = [].
Proof. by rewrite draw_game_tree_None. Qed.

(** C3, as stated, fails in two ways.  An action whose probability is 0.0
    gets no suffix (the test [if action.probability:] is false for it): its
    edge is labelled with the bare name.  And the label is not the name
    itself but the name passed through [wrap_text], which breaks a name
    longer than 15 columns.  Each holds for every pair of library functions
    that wraps the name concerned as [textwrap.wrap] does. *)
Lemma C3_zero_probability_unlabelled_and_long_name_broken :
  (¬ ∃ textwrap_wrap float_str,
       textwrap_wrap "Left" 15 = ["Left"]
       ∧ ∀ g, (draw_game_tree textwrap_wrap float_str 2 (Some 1%N)
                 chance_heap).1 = Returned g →
              ∃ l, (node_id_of 1%N, node_id_of 2%N, l) ∈ edges g ∧ l ≠ "Left")
  ∧ (¬ ∃ textwrap_wrap float_str,
         textwrap_wrap "Raise Price Substantially" 15
           = ["Raise Price"; "Substantially"]
         ∧ ∀ g, (draw_game_tree textwrap_wrap float_str 2 (Some 1%N)
                   long_name_heap).1 = Returned g →
                (node_id_of 1%N, node_id_of 2%N, "Raise Price Substantially")
                  ∈ edges g).
Proof.
  split; intros (textwrap_wrap & float_str & Hwrap & Hin);
    rewrite draw_game_tree_root in Hin.
  - change (fits chance_heap 2 1%N) with true in Hin.
    destruct (Hin _ eq_refl) as (l & Hl & Hsuffix).
    rewrite edges_app in Hl. simpl in Hl.
    change (action_lbl float_str (mk_action "Left" (Some 0%float) 2%N))
      with "Left" in Hl.
    unfold wrap_text in Hl. simpl in Hl. rewrite Hwrap in Hl.
    apply elem_of_cons in Hl as [[= ->]|Hl]; [done|].
    apply list_elem_of_singleton in Hl. discriminate.
  - change (fits long_name_heap 2 1%N) with true in Hin.
    specialize (Hin _ eq_refl). rewrite edges_app in Hin. simpl in Hin.
    unfold wrap_text, action_lbl in Hin. simpl in Hin. rewrite Hwrap in Hin.
    apply elem_of_cons in Hin as [[=]|Hin].
    apply list_elem_of_singleton in Hin. discriminate.
Qed.

(** C3, amended: on every acyclic structure, from some recursion depth on,
    [draw_game_tree] returns a graph in which, for every node below the
    root, the edges of its actions appear in the order of the actions, each
    from the node's identifier to the child's identifier.  The label of
    such an edge is [wrap_text] at width 15 of the action's name when the
    action has no probability, and of the name followed by a line feed and
    ["(p=<value>)"] when it has a probability other than zero. *)
Theorem C3_action_edges_in_order textwrap_wrap float_str
    (h : heap) (root : addr) :
  acyclic h root →
  ∃ n, ∀ limit, (n ≤ limit)%nat →
    ∃ g, draw_game_tree textwrap_wrap float_str limit (Some root) h
           = (Returned g, h)
         ∧ ∀ a, rtc (child h) root a →
             sublist (map (action_edge textwrap_wrap float_str a) (actions_of h a))
                     (edges g)
             ∧ ∀ action, action ∈ actions_of h a →
                 (probability action = None →
                  action_edge textwrap_wrap float_str a action
                  = (node_id_of a, node_id_of (next_node action),
                     wrap_text textwrap_wrap (name action) 15))
                 ∧ (∀ p, probability action = Some p → float_truthy p = true →
                    action_edge textwrap_wrap float_str a action
                    = (node_id_of a, node_id_of (next_node action),
                       wrap_text textwrap_wrap
                         (name action +:+ LF +:+ "(p=" +:+ float_str p +:+ ")") 15)).
Proof.
  intros [n Hn]%(acyclic_returns textwrap_wrap float_str). exists n.
  intros limit [Hfits Hdraw]%Hn. eexists. split; [exact Hdraw|].
  intros a Hreach. split.
  - destruct (trace_reaches textwrap_wrap float_str h limit root None "" a
                Hfits Hreach) as (m & p & lbl & pre & post & Hm & ->).
    rewrite !edges_app. simpl.
    apply sublist_inserts_l, sublist_inserts_r. by apply trace_own_edges.
  - intros action _. unfold action_edge, action_lbl. split.
    + by intros ->.
    + by intros p -> ->.
Qed.

(** The theorem on the pricing game. *)
Lemma C3_action_edges_in_order_witness :
  acyclic pricing_heap 1%N
  ∧ ∃ n, ∀ limit, (n ≤ limit)%nat →
      ∃ g, draw_game_tree wrap_one_line str_table limit (Some 1%N) pricing_heap
             = (Returned g, pricing_heap)
           ∧ ∀ a, rtc (child pricing_heap) 1%N a →
               sublist (map (action_edge wrap_one_line str_table a)
                            (actions_of pricing_heap a))
                       (edges g)
               ∧ ∀ action, action ∈ actions_of pricing_heap a →
                   (probability action = None →
                    action_edge wrap_one_line str_table a action
                    = (node_id_of a, node_id_of (next_node action),
                       wrap_text wrap_one_line (name action) 15))
                   ∧ (∀ p, probability action = Some p → float_truthy p = true →
                      action_edge wrap_one_line str_table a action
                      = (node_id_of a, node_id_of (next_node action),
                         wrap_text wrap_one_line
                           (name action +:+ LF +:+ "(p=" +:+ str_table p +:+ ")") 15)).
Proof.
  assert (acyclic pricing_heap 1%N) as Hacyclic
    by (apply (fits_acyclic _ 2); reflexivity).
  split; [exact Hacyclic|].
  exact (C3_action_edges_in_order wrap_one_line str_table pricing_heap 1%N Hacyclic).
Defined.

(** C4, as stated, fails: the loop over [node.actions] does not look at
    [is_terminal].  A node marked terminal that carries an action gets an
    outgoing edge, whatever the library functions do. *)
Lemma C4_terminal_node_with_action_has_edge :
  is_terminal (terminal_with_action 1%N) = true
  ∧ ¬ ∃ textwrap_wrap float_str,
        ∀ g, (draw_game_tree textwrap_wrap float_str 2 (Some 1%N)
                terminal_with_action).1 = Returned g →
             ∀ hd l, (node_id_of 1%N, hd, l) ∉ edges g.
Proof.
  split; [done|]. intros (textwrap_wrap & float_str & Hnone).
  rewrite draw_game_tree_root in Hnone.
  change (fits terminal_with_action 2 1%N) with true in Hnone.
  eapply (Hnone _ eq_refl). rewrite edges_app. apply elem_of_app. right.
  eapply elem_of_sublist;
    [|apply (trace_own_edges textwrap_wrap float_str terminal_with_action 2 1%N);
      reflexivity].
  left.
Qed.

(** C4, amended: in a graph [draw_game_tree] returns, no edge originates at
    a node whose action sequence is absent or empty, terminal or not (the
    traversal stops there); such a node below the root still has its node
    statement, and rendered as the root it gives the graph of that single
    node at every positive recursion limit.  (Edges are drawn for whatever
    actions a node has, also when it is marked terminal.) *)
Theorem C4_no_edge_from_node_without_actions textwrap_wrap float_str
    (limit : nat) (root : addr) (h h' : heap) (g : Digraph) (a : addr) :
  draw_game_tree textwrap_wrap float_str limit (Some root) h = (Returned g, h') →
  list_truthy (actions (h a)) = false →
  (∀ hd l, (node_id_of a, hd, l) ∉ edges g)
  ∧ (rtc (child h) root a →
     NodeStmt (node_id_of a) (node_label textwrap_wrap float_str (h a))
              (node_attrs (h a)) ∈ g)
  ∧ (∀ m, draw_game_tree textwrap_wrap float_str (S m) (Some a) h
          = (Returned (header ++
                       [NodeStmt (node_id_of a)
                          (node_label textwrap_wrap float_str (h a))
                          (node_attrs (h a))]), h)).
Proof.
  intros (Hfits & -> & ->)%draw_game_tree_returned Hfalsy.
  split; [|split].
  - intros hd l Hin. rewrite edges_app in Hin. simpl in Hin.
    apply trace_edge_tail in Hin as [[=]|(b & Hb & Htruthy & _)].
    apply node_id_of_inj in Hb as <-. congruence.
  - intros Hreach. apply elem_of_app. right. by apply trace_node_stmt.
  - intros m. rewrite draw_game_tree_root.
    assert (fits h (S m) a = true) as ->
      by (simpl; by rewrite actions_of_falsy).
    by rewrite trace_S, actions_of_falsy.
Qed.

(** The theorem on the chance node and its first leaf. *)
Lemma C4_no_edge_from_node_without_actions_witness :
  draw_game_tree wrap_one_line str_table 2 (Some 1%N) chance_heap
    = (Returned (header ++ trace wrap_one_line str_table chance_heap 2 1%N None ""),
       chance_heap)
  ∧ list_truthy (actions (chance_heap 2%N)) = false
  ∧ ∀ hd l, (node_id_of 2%N, hd, l)
            ∉ edges (header ++ trace wrap_one_line str_table chance_heap 2 1%N None "").
Proof.
  assert (draw_game_tree wrap_one_line str_table 2 (Some 1%N) chance_heap
          = (Returned (header ++ trace wrap_one_line str_table chance_heap 2 1%N None ""),
             chance_heap)) as Hdraw by (vm_compute; reflexivity).
  split; [exact Hdraw|]. split; [reflexivity|].
  exact (proj1 (C4_no_edge_from_node_without_actions wrap_one_line str_table
                  2 1%N chance_heap chance_heap _ 2%N Hdraw eq_refl)).
Defined.

(** C5: the pricing game (root player "Company A" with the actions "Raise
    Price" and "Lower Price", each leading to a terminal payoff node of its
    own) is rendered with exactly three nodes, of distinct identifiers, and
    two edges, labelled "Raise Price" and "Lower Price" with no probability
    suffix, [textwrap.wrap] leaving these two names as they are. *)
Theorem C5_pricing_game_three_nodes_two_edges textwrap_wrap float_str
    (h : heap) (r c1 c2 : addr) (pay1 pay2 : option Payoff) (limit : nat) :
  textwrap_wrap "Raise Price" 15 = ["Raise Price"] →
  textwrap_wrap "Lower Price" 15 = ["Lower Price"] →
  h r = pricing_root c1 c2 → h c1 = leaf pay1 → h c2 = leaf pay2 →
  c1 ≠ c2 → (2 ≤ limit)%nat →
  ∃ g, draw_game_tree textwrap_wrap float_str limit (Some r) h = (Returned g, h)
       ∧ length (nodes g) = 3%nat
       ∧ NoDup (names_of g)
       ∧ length (edges g) = 2%nat
       ∧ edges g = [(node_id_of r, node_id_of c1, "Raise Price");
                    (node_id_of r, node_id_of c2, "Lower Price")].
Proof.
  intros Hraise Hlower Hr Hc1 Hc2 Hne Hlimit.
  destruct limit as [|[|limit]]; [lia..|].
  assert (actions_of h r = [mk_action "Raise Price" None c1;
                            mk_action "Lower Price" None c2]) as Hacts
    by (unfold actions_of; by rewrite Hr).
  assert (actions_of h c1 = []) as Hacts1 by (unfold actions_of; by rewrite Hc1).
  assert (actions_of h c2 = []) as Hacts2 by (unfold actions_of; by rewrite Hc2).
  assert (r ≠ c1) as Hr1 by (intros ->; rewrite Hr in Hc1; discriminate).
  assert (r ≠ c2) as Hr2 by (intros ->; rewrite Hr in Hc2; discriminate).
  rewrite draw_game_tree_root.
  assert (fits h (S (S limit)) r = true) as ->.
  { simpl. rewrite Hacts. simpl. by rewrite Hacts1, Hacts2. }
  eexists. split; [reflexivity|].
  rewrite trace_S, Hacts. cbn [flat_map]. rewrite !trace_S.
  unfold mk_action. cbn [next_node]. rewrite Hacts1, Hacts2.
  unfold enter. rewrite !node_id_of_truthy. cbn [flat_map app].
  unfold wrap_text, action_lbl. simpl. rewrite Hraise, Hlower. simpl.
  repeat split.
  repeat constructor; rewrite ?elem_of_cons, ?elem_of_nil;
    intros Hin; repeat destruct Hin as [Hin|Hin]; try done;
    apply node_id_of_inj in Hin; congruence.
Qed.

(** The theorem on the pricing game stored at the identities 1, 2 and 3. *)
Lemma C5_pricing_game_three_nodes_two_edges_witness :
  ∃ g, draw_game_tree wrap_one_line str_table 1000 (Some 1%N) pricing_heap
         = (Returned g, pricing_heap)
       ∧ length (nodes g) = 3%nat
       ∧ NoDup (names_of g)
       ∧ length (edges g) = 2%nat
       ∧ edges g = [(node_id_of 1%N, node_id_of 2%N, "Raise Price");
                    (node_id_of 1%N, node_id_of 3%N, "Lower Price")].
Proof.
  apply (C5_pricing_game_three_nodes_two_edges wrap_one_line str_table
           pricing_heap 1%N 2%N 3%N (Some raise_payoff) (Some lower_payoff) 1000).
  - reflexivity.
  - reflexivity.
  - reflexivity.
  - reflexivity.
  - reflexivity.
  - discriminate.
  - lia.
Defined.

(** C6, as stated, fails for terminal nodes: their label is built from the
    payoff alone, so a terminal node that names no player is not labelled
    with the fallback.  Rendered on its own, such a node with no payoff
    gives exactly the graph below, whatever the library functions do. *)
Lemma C6_terminal_node_ignores_player_fallback :
  current_player_name (unnamed_heap 2%N) = None
  ∧ ¬ ∃ textwrap_wrap float_str,
        (draw_game_tree textwrap_wrap float_str 1 (Some 2%N) unnamed_heap).1
        ≠ Returned (header ++
                    [NodeStmt "2"
                       ("Outcome:" +:+ LF +:+ LF +:+ LF +:+ "Payoffs:" +:+ LF)
                       box_attrs]).
Proof.
  split; [done|]. intros (textwrap_wrap & float_str & Hother).
  apply Hother. by vm_compute.
Qed.

(** C6, amended: on every acyclic structure, from some recursion depth on,
    [draw_game_tree] returns a graph and does not raise on missing optional
    fields.  In it a non-terminal node below the root with no
    [current_player_name] is labelled with the fallback ["Unknown"] (on the
    line above ["(Moves)"], [textwrap.wrap] leaving the word as it is), and
    a terminal node with no payoff has empty outcome and payoff sections. *)
Theorem C6_fallbacks_for_missing_fields textwrap_wrap float_str
    (h : heap) (root : addr) :
  textwrap_wrap "Unknown" 20 = ["Unknown"] →
  acyclic h root →
  ∃ n, ∀ limit, (n ≤ limit)%nat →
    ∃ g, draw_game_tree textwrap_wrap float_str limit (Some root) h
           = (Returned g, h)
         ∧ ∀ a, rtc (child h) root a →
             (is_terminal (h a) = false → current_player_name (h a) = None →
              NodeStmt (node_id_of a) ("Unknown" +:+ LF +:+ "(Moves)") oval_attrs ∈ g)
             ∧ (is_terminal (h a) = true → payoff (h a) = None →
                NodeStmt (node_id_of a)
                  ("Outcome:" +:+ LF +:+ LF +:+ LF +:+ "Payoffs:" +:+ LF)
                  box_attrs ∈ g).
Proof.
  intros Hwrap [n Hn]%(acyclic_returns textwrap_wrap float_str). exists n.
  intros limit [Hfits Hdraw]%Hn. eexists. split; [exact Hdraw|].
  intros a Hreach.
  pose proof (trace_node_stmt textwrap_wrap float_str h limit root None "" a
                Hfits Hreach) as Hnode.
  split; intros Hterminal Hmissing; apply elem_of_app; right;
    revert Hnode; unfold node_label, node_attrs, is_nature, wrap_text;
    rewrite Hterminal, Hmissing; simpl; by rewrite ?Hwrap.
Qed.

(** The theorem on the decision node that names no player. *)
Lemma C6_fallbacks_for_missing_fields_witness :
  wrap_one_line "Unknown" 20 = ["Unknown"]
  ∧ acyclic unnamed_heap 1%N
  ∧ ∃ n, ∀ limit, (n ≤ limit)%nat →
      ∃ g, draw_game_tree wrap_one_line str_table limit (Some 1%N) unnamed_heap
             = (Returned g, unnamed_heap)
           ∧ ∀ a, rtc (child unnamed_heap) 1%N a →
               (is_terminal (unnamed_heap a) = false →
                current_player_name (unnamed_heap a) = None →
                NodeStmt (node_id_of a) ("Unknown" +:+ LF +:+ "(Moves)") oval_attrs ∈ g)
               ∧ (is_terminal (unnamed_heap a) = true →
                  payoff (unnamed_heap a) = None →
                  NodeStmt (node_id_of a)
                    ("Outcome:" +:+ LF +:+ LF +:+ LF +:+ "Payoffs:" +:+ LF)
                    box_attrs ∈ g).
Proof.
  assert (acyclic unnamed_heap 1%N) as Hacyclic
    by (apply (fits_acyclic _ 2); reflexivity).
  split; [reflexivity|]. split; [exact Hacyclic|].
  exact (C6_fallbacks_for_missing_fields wrap_one_line str_table unnamed_heap
           1%N eq_refl Hacyclic).
Defined.

(** C7: two calls of [draw_game_tree] in a row on the same structure, each
    with whatever recursion depth it is given, return the same graph when
    both return: the same node records (identifier, label, shape and style)
    and the same edges (tail, head and label), so the identifiers of the
    first are connected exactly as those of the second; the second call
    finds the store as the first one did. *)
Theorem C7_render_twice_same_graph textwrap_wrap float_str
    (limit1 limit2 : nat) (root_node : option addr) (h h1 h2 : heap)
    (g1 g2 : Digraph) :
  draw_game_tree textwrap_wrap float_str limit1 root_node h = (Returned g1, h1) →
  draw_game_tree textwrap_wrap float_str limit2 root_node h1 = (Returned g2, h2) →
  g2 = g1 ∧ nodes g2 = nodes g1 ∧ edges g2 = edges g1 ∧ h1 = h ∧ h2 = h.
Proof.
  intros Hfirst Hsecond.
  assert (g2 = g1 ∧ h1 = h ∧ h2 = h) as (-> & -> & ->); [|done].
  destruct root_node as [root|].
  - apply draw_game_tree_returned in Hfirst as (Hfits1 & -> & ->).
    apply draw_game_tree_returned in Hsecond as (Hfits2 & -> & ->).
    by rewrite (trace_limit_irrelevant textwrap_wrap float_str h limit1 limit2).
  - rewrite draw_game_tree_None in Hfirst, Hsecond. by simplify_eq.
Qed.

(** The theorem on two renderings of the pricing game, at depths 2 and 5. *)
Lemma C7_render_twice_same_graph_witness :
  let g := header ++ trace wrap_one_line str_table pricing_heap 2 1%N None "" in
  draw_game_tree wrap_one_line str_table 2 (Some 1%N) pricing_heap
    = (Returned g, pricing_heap)
  ∧ draw_game_tree wrap_one_line str_table 5 (Some 1%N) pricing_heap
    = (Returned g, pricing_heap)
  ∧ nodes g = nodes g ∧ edges g = edges g.
Proof.
  intros g.
  assert (draw_game_tree wrap_one_line str_table 2 (Some 1%N) pricing_heap
          = (Returned g, pricing_heap)) as Hfirst by (vm_compute; reflexivity).
  assert (draw_game_tree wrap_one_line str_table 5 (Some 1%N) pricing_heap
          = (Returned g, pricing_heap)) as Hsecond by (vm_compute; reflexivity).
  split; [exact Hfirst|]. split; [exact Hsecond|].
  destruct (C7_render_twice_same_graph wrap_one_line str_table 2 5 (Some 1%N)
              pricing_heap pricing_heap pricing_heap g g Hfirst Hsecond)
    as (_ & Hnodes & Hedges & _).
  split; [exact Hnodes|exact Hedges].
Defined.

(** C8: [validate_choices] returns every list it is given unchanged and
    never raises, also a list of exactly one action, so building a
    [GameNode] succeeds whatever the number of its actions. *)
Theorem C8_validate_choices_observes_only
    (v : option (list Action)) (id0 : string) (player : option string)
    (terminal : bool) (action : Action) (pay : option Payoff) :
  validate_choices v = Returned v
  ∧ validate_choices (Some [action]) = Returned (Some [action])
  ∧ GameNode_init id0 player terminal v pay =
    Returned {| id := id0; current_player_name := player;
                is_terminal := terminal; actions := v; payoff := pay |}.
Proof.
  unfold GameNode_init. by rewrite !validate_choices_returns.
Qed.

(** C9: [draw_game_tree] never mutates its input: after the call, returned
    or raised, the store holds every object as it was before. *)
Theorem C9_draw_game_tree_keeps_store textwrap_wrap float_str
    (limit : nat) (root_node : option addr) (h : heap) :
  (draw_game_tree textwrap_wrap float_str limit root_node h).2 = h.
Proof.
  destruct root_node as [root|];
    [by rewrite draw_game_tree_root|by rewrite draw_game_tree_None].
Qed.

(** C10: on every acyclic structure, from some recursion depth on,
    [draw_game_tree] returns a graph that is closed over its edge
    endpoints: each edge statement comes after a node statement for its
    tail and one for its head (the parent is emitted before the loop, the
    child before the edge that reaches it), so both identifiers of every
    edge are among the emitted nodes. *)
Theorem C10_edges_closed_over_emitted_nodes textwrap_wrap float_str
    (h : heap) (root : addr) :
  acyclic h root →
  ∃ n, ∀ limit, (n ≤ limit)%nat →
    ∃ g, draw_game_tree textwrap_wrap float_str limit (Some root) h
           = (Returned g, h)
         ∧ edges_follow_nodes g
         ∧ ∀ t hd l, (t, hd, l) ∈ edges g → declared t g ∧ declared hd g.
Proof.
  intros [n Hn]%(acyclic_returns textwrap_wrap float_str). exists n.
  intros limit [_ Hdraw]%Hn. eexists. split; [exact Hdraw|].
  pose proof (closed_edges_follow_nodes _
                (draw_closed textwrap_wrap float_str h limit root)) as Hg.
  split; [done|]. intros t hd l. by apply edges_follow_nodes_declared.
Qed.

(** The theorem on the pricing game. *)
Lemma C10_edges_closed_over_emitted_nodes_witness :
  acyclic pricing_heap 1%N
  ∧ ∃ n, ∀ limit, (n ≤ limit)%nat →
      ∃ g, draw_game_tree wrap_one_line str_table limit (Some 1%N) pricing_heap
             = (Returned g, pricing_heap)
           ∧ edges_follow_nodes g
           ∧ ∀ t hd l, (t, hd, l) ∈ edges g → declared t g ∧ declared hd g.
Proof.
  assert (acyclic pricing_heap 1%N) as Hacyclic
    by (apply (fits_acyclic _ 2); reflexivity).
  split; [exact Hacyclic|].
  exact (C10_edges_closed_over_emitted_nodes wrap_one_line str_table
           pricing_heap 1%N Hacyclic).
Defined.

(** * Beyond the claims *)

(** ** The graph of a returning traversal, read against the structure *)

Lemma nodes_app g1 g2 : nodes (g1 ++ g2) = nodes g1 ++ nodes g2.
Proof. apply omap_app. Qed.

Lemma names_of_app g1 g2 : names_of (g1 ++ g2) = names_of g1 ++ names_of g2.
Proof. apply omap_app. Qed.

Section Graph.

Variable textwrap_wrap : string → nat → list string.
Variable float_str : float → string.
Variable h : heap.

Local Abbreviation wrap_text := (wrap_text textwrap_wrap).
Local Abbreviation action_lbl := (action_lbl float_str).
Local Abbreviation node_label := (node_label textwrap_wrap float_str).
Local Abbreviation enter := (enter textwrap_wrap float_str h).
Local Abbreviation trace := (trace textwrap_wrap float_str h).
Local Abbreviation action_edge := (action_edge textwrap_wrap float_str).

(** An activation with a parent appends as many edges as nodes. *)
Lemma trace_child_counts limit node p edge_label :
  str_truthy p = true →
  length (nodes (trace limit node (Some p) edge_label))
  = length (edges (trace limit node (Some p) edge_label)).
Proof.
  revert node p edge_label.
  induction limit as [|limit IH]; intros node p edge_label Hp; [done|].
  rewrite trace_S, nodes_app, edges_app, !length_app.
  unfold enter. rewrite Hp. simpl. do 2 f_equal.
  induction (actions_of h node) as [|action l IHl]; simpl; [done|].
  rewrite nodes_app, edges_app, !length_app, IHl.
  by rewrite IH by apply node_id_of_truthy.
Qed.

(** The root's activation appends one node more than edges. *)
Lemma trace_root_counts limit root :
  length (nodes (trace (S limit) root None ""))
  = S (length (edges (trace (S limit) root None ""))).
Proof.
  rewrite trace_S, nodes_app, edges_app, !length_app. simpl. f_equal.
  induction (actions_of h root) as [|action l IHl]; simpl; [done|].
  rewrite nodes_app, edges_app, !length_app, IHl.
  by rewrite trace_child_counts by apply node_id_of_truthy.
Qed.

(** Every node statement is the record of a node below the start. *)
Lemma trace_node_sound limit node parent_id edge_label n l a :
  NodeStmt n l a ∈ trace limit node parent_id edge_label →
  ∃ b, rtc (child h) node b ∧ n = node_id_of b
       ∧ l = node_label (h b) ∧ a = node_attrs (h b).
Proof.
  revert node parent_id edge_label.
  induction limit as [|limit IH]; intros node parent_id edge_label;
    [by intros ?%elem_of_nil|].
  rewrite trace_S, elem_of_app. intros [Hown|Hbelow].
  - exists node. split; [apply rtc_refl|].
    unfold enter in Hown. apply elem_of_cons in Hown as [[= -> -> ->]|Hown];
      [done|].
    destruct parent_id as [p|]; [destruct (str_truthy p)|];
      try by apply elem_of_nil in Hown.
    by apply list_elem_of_singleton in Hown.
  - apply list_elem_of_In, in_flat_map in Hbelow as (action & Hin & Hs).
    apply list_elem_of_In in Hin, Hs.
    apply IH in Hs as (b & Hreach & Hb). exists b. split; [|done].
    eapply rtc_l; [|done]. by exists action.
Qed.

(** Every edge is the one handed to the activation or the edge of an
    action of a node below the start. *)
Lemma trace_edge_sound limit node parent_id edge_label e :
  e ∈ edges (trace limit node parent_id edge_label) →
  (∃ p, parent_id = Some p ∧ e = (p, node_id_of node, wrap_text edge_label 15))
  ∨ ∃ b action, rtc (child h) node b ∧ action ∈ actions_of h b
                ∧ e = action_edge b action.
Proof.
  revert node parent_id edge_label.
  induction limit as [|limit IH]; intros node parent_id edge_label;
    [by intros ?%elem_of_nil|].
  rewrite trace_S, edges_app, elem_of_app. intros [Hown|Hbelow].
  - left. unfold enter in Hown. simpl in Hown.
    destruct parent_id as [p|]; [destruct (str_truthy p)|]; simpl in Hown;
      try by apply elem_of_nil in Hown.
    apply list_elem_of_singleton in Hown. by exists p.
  - right. unfold edges in Hbelow.
    apply list_elem_of_omap in Hbelow as (s & Hs & Hedge).
    apply list_elem_of_In, in_flat_map in Hs as (action & Hin & Hs).
    apply list_elem_of_In in Hin, Hs.
    destruct (IH (next_node action) (Some (node_id_of node)) (action_lbl action))
      as [(p & [= <-] & ->)|(b & action' & Hreach & Hin' & ->)].
    { unfold edges. apply list_elem_of_omap. by exists s. }
    + exists node, action. split; [apply rtc_refl|done].
    + exists b, action'. split; [|done].
      eapply rtc_l; [|done]. by exists action.
Qed.

(** The names declared are the identifiers of the visited identities. *)
Lemma trace_names limit node parent_id edge_label :
  names_of (trace limit node parent_id edge_label)
  = map node_id_of (preorder h limit node).
Proof.
  revert node parent_id edge_label.
  induction limit as [|limit IH]; intros node parent_id edge_label; [done|].
  rewrite trace_S, names_of_app. simpl preorder. simpl map.
  assert (names_of (enter node parent_id edge_label) = [node_id_of node]) as ->.
  { unfold enter. by destruct parent_id as [p|]; [destruct (str_truthy p)|]. }
  simpl. f_equal.
  induction (actions_of h node) as [|action l IHl]; simpl; [done|].
  by rewrite names_of_app, map_app, IH, IHl.
Qed.

End Graph.

Lemma elem_of_nodes g n l a : (n, l, a) ∈ nodes g ↔ NodeStmt n l a ∈ g.
Proof.
  unfold nodes. rewrite list_elem_of_omap. split.
  - intros ([] & Hin & Heq); by simplify_eq.
  - intros Hin. by exists (NodeStmt n l a).
Qed.

(** The least number of activations that suffices. *)
Lemma fits_least h n node :
  fits h n node = true →
  ∃ d, fits h d node = true ∧ ∀ k, (k < d)%nat → fits h k node = false.
Proof.
  induction n as [|n IH]; [done|]. intros Hn.
  destruct (fits h n node) eqn:Hprev; [by apply IH|].
  exists (S n). split; [done|]. intros k Hk.
  destruct (fits h k node) eqn:Hfits; [|done].
  rewrite (fits_mono h k n node) in Hprev; [done..|lia].
Qed.

(** X1: a graph [draw_game_tree] returns for a root has exactly one node
    statement more than it has edges: every activation declares its node,
    and every activation but the root's draws the edge that reaches it. *)
Theorem draw_game_tree_one_node_more_than_edges textwrap_wrap float_str
    (limit : nat) (root : addr) (h h' : heap) (g : Digraph) :
  draw_game_tree textwrap_wrap float_str limit (Some root) h = (Returned g, h') →
  length (nodes g) = S (length (edges g)).
Proof.
  intros (Hfits & -> & _)%draw_game_tree_returned.
  destruct limit as [|limit]; [done|].
  rewrite nodes_app, edges_app. simpl length. apply trace_root_counts.
Qed.

(** The theorem on the chance node and its two leaves. *)
Lemma draw_game_tree_one_node_more_than_edges_witness :
  let g := header ++ trace wrap_one_line str_table chance_heap 2 1%N None "" in
  draw_game_tree wrap_one_line str_table 2 (Some 1%N) chance_heap
    = (Returned g, chance_heap)
  ∧ length (nodes g) = S (length (edges g)).
Proof.
  intros g.
  assert (draw_game_tree wrap_one_line str_table 2 (Some 1%N) chance_heap
          = (Returned g, chance_heap)) as Hdraw by (vm_compute; reflexivity).
  split; [exact Hdraw|].
  exact (draw_game_tree_one_node_more_than_edges wrap_one_line str_table
           2 1%N chance_heap chance_heap g Hdraw).
Defined.

(** X2: the node records of a returned graph are exactly the records of
    the nodes that can be reached from the root through [next_node]: each
    carries the identifier, the label and the attributes of such a node,
    and every such node has its record. *)
Theorem draw_game_tree_nodes_are_the_reachable_nodes textwrap_wrap float_str
    (limit : nat) (root : addr) (h h' : heap) (g : Digraph)
    (n l : string) (a : attrs) :
  draw_game_tree textwrap_wrap float_str limit (Some root) h = (Returned g, h') →
  (n, l, a) ∈ nodes g
  ↔ ∃ b, rtc (child h) root b ∧ n = node_id_of b
         ∧ l = node_label textwrap_wrap float_str (h b) ∧ a = node_attrs (h b).
Proof.
  intros (Hfits & -> & _)%draw_game_tree_returned.
  rewrite elem_of_nodes, elem_of_app. split.
  - intros [Hheader|Htrace].
    + unfold header in Hheader.
      repeat (apply elem_of_cons in Hheader as [[=]|Hheader]).
      by apply elem_of_nil in Hheader.
    + by eapply trace_node_sound.
  - intros (b & Hreach & -> & -> & ->). right. by apply trace_node_stmt.
Qed.

(** The theorem on the second leaf of the pricing game. *)
Lemma draw_game_tree_nodes_are_the_reachable_nodes_witness :
  let g := header ++ trace wrap_one_line str_table pricing_heap 2 1%N None "" in
  draw_game_tree wrap_one_line str_table 2 (Some 1%N) pricing_heap
    = (Returned g, pricing_heap)
  ∧ ((node_id_of 3%N, node_label wrap_one_line str_table (pricing_heap 3%N),
      box_attrs) ∈ nodes g
     ↔ ∃ b, rtc (child pricing_heap) 1%N b ∧ node_id_of 3%N = node_id_of b
            ∧ node_label wrap_one_line str_table (pricing_heap 3%N)
              = node_label wrap_one_line str_table (pricing_heap b)
            ∧ box_attrs = node_attrs (pricing_heap b)).
Proof.
  intros g.
  assert (draw_game_tree wrap_one_line str_table 2 (Some 1%N) pricing_heap
          = (Returned g, pricing_heap)) as Hdraw by (vm_compute; reflexivity).
  split; [exact Hdraw|].
  exact (draw_game_tree_nodes_are_the_reachable_nodes wrap_one_line str_table
           2 1%N pricing_heap pricing_heap g _ _ _ Hdraw).
Defined.

(** X3: the edges of a returned graph are exactly the edges of the actions
    of the nodes that can be reached from the root: no edge is drawn that
    no action stands for, and no action is left without its edge. *)
Theorem draw_game_tree_edges_are_the_actions textwrap_wrap float_str
    (limit : nat) (root : addr) (h h' : heap) (g : Digraph)
    (e : string * string * string) :
  draw_game_tree textwrap_wrap float_str limit (Some root) h = (Returned g, h') →
  e ∈ edges g
  ↔ ∃ b action, rtc (child h) root b ∧ action ∈ actions_of h b
                ∧ e = action_edge textwrap_wrap float_str b action.
Proof.
  intros (Hfits & -> & _)%draw_game_tree_returned.
  rewrite edges_app. simpl. split.
  - intros [(p & [=] & _)|Hbelow]%trace_edge_sound. done.
  - intros (b & action & Hreach & Hin & ->).
    destruct (trace_reaches textwrap_wrap float_str h limit root None "" b
                Hfits Hreach) as (m & p & lbl & pre & post & Hm & ->).
    rewrite !edges_app, !elem_of_app. right. left.
    eapply elem_of_sublist; [|by apply trace_own_edges].
    apply list_elem_of_In, in_map. by apply list_elem_of_In.
Qed.

(** The theorem on the edge of the action "Lower Price". *)
Lemma draw_game_tree_edges_are_the_actions_witness :
  let g := header ++ trace wrap_one_line str_table pricing_heap 2 1%N None "" in
  let e := action_edge wrap_one_line str_table 1%N
             (mk_action "Lower Price" None 3%N) in
  draw_game_tree wrap_one_line str_table 2 (Some 1%N) pricing_heap
    = (Returned g, pricing_heap)
  ∧ (e ∈ edges g
     ↔ ∃ b action, rtc (child pricing_heap) 1%N b
                   ∧ action ∈ actions_of pricing_heap b
                   ∧ e = action_edge wrap_one_line str_table b action).
Proof.
  intros g e.
  assert (draw_game_tree wrap_one_line str_table 2 (Some 1%N) pricing_heap
          = (Returned g, pricing_heap)) as Hdraw by (vm_compute; reflexivity).
  split; [exact Hdraw|].
  exact (draw_game_tree_edges_are_the_actions wrap_one_line str_table
           2 1%N pricing_heap pricing_heap g e Hdraw).
Defined.

(** X4: the recursion limit only decides whether [draw_game_tree] returns:
    once it returns a graph at some limit, it returns the same graph at
    every larger limit. *)
Theorem draw_game_tree_same_graph_at_larger_limits textwrap_wrap float_str
    (n m : nat) (root_node : option addr) (h h' : heap) (g : Digraph) :
  draw_game_tree textwrap_wrap float_str n root_node h = (Returned g, h') →
  (n ≤ m)%nat →
  draw_game_tree textwrap_wrap float_str m root_node h = (Returned g, h).
Proof.
  intros Hdraw Hle. destruct root_node as [root|].
  - apply draw_game_tree_returned in Hdraw as (Hfits & -> & _).
    rewrite draw_game_tree_root, (fits_mono h n m root) by done.
    do 3 f_equal. apply trace_limit_irrelevant; [by eapply fits_mono|done].
  - rewrite draw_game_tree_None in Hdraw |- *. by simplify_eq.
Qed.

(** The theorem on the pricing game, from 2 activations to 1000. *)
Lemma draw_game_tree_same_graph_at_larger_limits_witness :
  let g := header ++ trace wrap_one_line str_table pricing_heap 2 1%N None "" in
  draw_game_tree wrap_one_line str_table 2 (Some 1%N) pricing_heap
    = (Returned g, pricing_heap)
  ∧ draw_game_tree wrap_one_line str_table 1000 (Some 1%N) pricing_heap
    = (Returned g, pricing_heap).
Proof.
  intros g.
  assert (draw_game_tree wrap_one_line str_table 2 (Some 1%N) pricing_heap
          = (Returned g, pricing_heap)) as Hdraw by (vm_compute; reflexivity).
  split; [exact Hdraw|].
  apply (draw_game_tree_same_graph_at_larger_limits wrap_one_line str_table
           2 1000 (Some 1%N) pricing_heap pricing_heap g Hdraw). lia.
Defined.

(** X5: a structure is acyclic below the root exactly when there are a
    depth [d] and a graph [g] such that [draw_game_tree] raises
    [RecursionError] at every limit below [d] and returns [g] at every
    limit from [d] on; on any other structure it raises at every limit. *)
Theorem draw_game_tree_returns_from_a_depth_iff_acyclic textwrap_wrap float_str
    (root : addr) (h : heap) :
  (acyclic h root
   ↔ ∃ d g, ∀ limit,
       draw_game_tree textwrap_wrap float_str limit (Some root) h
       = (if (d <=? limit)%nat then Returned g else Raised RecursionError, h))
  ∧ (¬ acyclic h root
     → ∀ limit, draw_game_tree textwrap_wrap float_str limit (Some root) h
                = (Raised RecursionError, h)).
Proof.
  split; [split|].
  - intros [n Hn]%acyclic_fits.
    destruct (fits_least h n root Hn) as (d & Hd & Hleast).
    exists d, (header ++ trace textwrap_wrap float_str h d root None "").
    intros limit. rewrite draw_game_tree_root.
    destruct (Nat.leb_spec d limit) as [Hle|Hlt].
    + rewrite (fits_mono h d limit root) by done.
      do 3 f_equal. apply trace_limit_irrelevant; [by eapply fits_mono|done].
    + by rewrite Hleast.
  - intros (d & g & Hdraw). specialize (Hdraw d).
    rewrite Nat.leb_refl, draw_game_tree_root in Hdraw.
    destruct (fits h d root) eqn:Hfits; [by eapply fits_acyclic|discriminate].
  - intros Hcyclic limit. rewrite draw_game_tree_root.
    destruct (fits h limit root) eqn:Hfits; [|done].
    destruct Hcyclic. by eapply fits_acyclic.
Qed.

(** ** What the traversal does not look at *)

Section Indifference.

Variable textwrap_wrap : string → nat → list string.
Variable float_str : float → string.

Local Abbreviation action_lbl := (action_lbl float_str).
Local Abbreviation node_label := (node_label textwrap_wrap float_str).
Local Abbreviation enter := (enter textwrap_wrap float_str).
Local Abbreviation trace := (trace textwrap_wrap float_str).

(** The chance styling reads the player through the same fallback as the
    label does. *)
Lemma is_nature_shown n :
  is_nature n
  = String.eqb (lower (str_or (current_player_name n) "Unknown")) "nature".
Proof.
  unfold is_nature, str_or. by destruct (current_player_name n) as [[|c s]|].
Qed.

Lemma action_lbl_shown action :
  action_lbl action
  = match shown_probability (probability action) with
    | Some p => name action +:+ LF +:+ "(p=" +:+ float_str p +:+ ")"
    | None => name action
    end.
Proof.
  unfold action_lbl, shown_probability.
  destruct (probability action) as [p|]; [|done]. by destruct (float_truthy p).
Qed.

Lemma same_rendering_label n1 n2 :
  same_rendering n1 n2 → node_label n1 = node_label n2.
Proof.
  intros (Hterminal & Hshown & _). unfold node_label.
  rewrite <- Hterminal. destruct (is_terminal n1); by rewrite Hshown.
Qed.

Lemma same_rendering_attrs n1 n2 :
  same_rendering n1 n2 → node_attrs n1 = node_attrs n2.
Proof.
  intros (Hterminal & Hshown & _). unfold node_attrs.
  rewrite !is_nature_shown, <- Hterminal.
  destruct (is_terminal n1); [done|by rewrite Hshown].
Qed.

Lemma same_action_lbl a1 a2 : same_action a1 a2 → action_lbl a1 = action_lbl a2.
Proof. intros (Hname & Hp & _). by rewrite !action_lbl_shown, Hname, Hp. Qed.

Variables h1 h2 : heap.
Hypothesis Hsame : ∀ a, same_rendering (h1 a) (h2 a).

Lemma same_rendering_fits limit node : fits h1 limit node = fits h2 limit node.
Proof.
  revert node. induction limit as [|limit IH]; intros node; [done|]. simpl.
  destruct (Hsame node) as (_ & _ & Hactions). unfold actions_of.
  induction Hactions as [|a1 a2 l1 l2 (_ & _ & Hnext) _ IHl]; simpl; [done|].
  by rewrite IHl, Hnext, IH.
Qed.

Lemma same_rendering_trace limit node parent_id edge_label :
  trace h1 limit node parent_id edge_label
  = trace h2 limit node parent_id edge_label.
Proof.
  revert node parent_id edge_label.
  induction limit as [|limit IH]; intros node parent_id edge_label; [done|].
  rewrite !trace_S. unfold enter.
  rewrite (same_rendering_label _ _ (Hsame node)),
          (same_rendering_attrs _ _ (Hsame node)).
  f_equal. destruct (Hsame node) as (_ & _ & Hactions). unfold actions_of.
  induction Hactions as [|a1 a2 l1 l2 Ha _ IHl]; simpl; [done|].
  rewrite IHl, (same_action_lbl _ _ Ha).
  destruct Ha as (_ & _ & ->). by rewrite IH.
Qed.

End Indifference.

Lemma lower_truthy s : str_truthy (lower s) = str_truthy s.
Proof. by destruct s. Qed.

(** X6: what the graph does not depend on.  Two stored structures whose
    nodes agree up to [same_rendering] (they may differ in every [id] and
    [description], in the payoff of non-terminal nodes, in the player of
    terminal nodes, in a player, an action list or a probability that is
    missing in one and empty, "Unknown" or zero in the other) are drawn
    alike at every limit: the same graph, or [RecursionError] for both. *)
Theorem draw_game_tree_ignores_unrendered_fields textwrap_wrap float_str
    (h1 h2 : heap) (limit : nat) (root_node : option addr) :
  (∀ a, same_rendering (h1 a) (h2 a)) →
  (draw_game_tree textwrap_wrap float_str limit root_node h1).1
  = (draw_game_tree textwrap_wrap float_str limit root_node h2).1.
Proof.
  intros Hsame. destruct root_node as [root|]; [|done].
  rewrite !draw_game_tree_root. simpl.
  by rewrite (same_rendering_fits h1 h2 Hsame),
             (same_rendering_trace textwrap_wrap float_str h1 h2 Hsame).
Qed.

(** The theorem on the chance node written in two ways. *)
Lemma draw_game_tree_ignores_unrendered_fields_witness :
  (∀ a, same_rendering (chance_heap a) (chance_heap_variant a))
  ∧ (draw_game_tree wrap_one_line str_table 3 (Some 1%N) chance_heap).1
    = (draw_game_tree wrap_one_line str_table 3 (Some 1%N) chance_heap_variant).1.
Proof.
  assert (∀ a, same_rendering (chance_heap a) (chance_heap_variant a)) as Hsame.
  { intros a. unfold same_rendering, chance_heap, chance_heap_variant.
    destruct (a =? 1)%N; simpl; repeat split; repeat constructor. }
  split; [exact Hsame|].
  exact (draw_game_tree_ignores_unrendered_fields wrap_one_line str_table
           chance_heap chance_heap_variant 3 (Some 1%N) Hsame).
Defined.

(** X7: the node statements of a returned graph follow the depth-first,
    parents-first order of the visit: their names are the identifiers of
    the identities visited, in that order.  Distinct objects get distinct
    identifiers, so a name is declared twice exactly when an object is
    visited twice (when the structure shares a node). *)
Theorem draw_game_tree_declares_nodes_in_preorder textwrap_wrap float_str
    (limit : nat) (root : addr) (h h' : heap) (g : Digraph) :
  draw_game_tree textwrap_wrap float_str limit (Some root) h = (Returned g, h') →
  names_of g = map node_id_of (preorder h limit root)
  ∧ (NoDup (names_of g) ↔ NoDup (preorder h limit root)).
Proof.
  intros (Hfits & -> & _)%draw_game_tree_returned.
  rewrite names_of_app. simpl. rewrite trace_names. split; [done|].
  assert (Inj (=) (=) node_id_of) as Hinj by (intros a b; apply node_id_of_inj).
  exact (NoDup_fmap node_id_of (preorder h limit root)).
Qed.

(** The theorem on the structure that shares its leaf, whose name is
    declared twice. *)
Lemma draw_game_tree_declares_nodes_in_preorder_witness :
  let g := header ++ trace wrap_one_line str_table shared_leaf_heap 2 1%N None "" in
  draw_game_tree wrap_one_line str_table 2 (Some 1%N) shared_leaf_heap
    = (Returned g, shared_leaf_heap)
  ∧ names_of g = map node_id_of [1%N; 2%N; 2%N]
  ∧ (NoDup (names_of g) ↔ NoDup [1%N; 2%N; 2%N]).
Proof.
  intros g.
  assert (draw_game_tree wrap_one_line str_table 2 (Some 1%N) shared_leaf_heap
          = (Returned g, shared_leaf_heap)) as Hdraw by (vm_compute; reflexivity).
  split; [exact Hdraw|].
  exact (draw_game_tree_declares_nodes_in_preorder wrap_one_line str_table
           2 1%N shared_leaf_heap shared_leaf_heap g Hdraw).
Defined.

(** X8: the chance styling is case-insensitive.  Two nodes with the same
    [is_terminal] flag whose player names differ only in the case of their
    letters get the same shape and colour. *)
Theorem node_attrs_case_insensitive (n1 n2 : GameNode) (s1 s2 : string) :
  current_player_name n1 = Some s1 → current_player_name n2 = Some s2 →
  lower s1 = lower s2 → is_terminal n1 = is_terminal n2 →
  node_attrs n1 = node_attrs n2.
Proof.
  intros Hn1 Hn2 Hlower Hterminal. unfold node_attrs, is_nature.
  rewrite Hn1, Hn2, <- Hterminal, <- (lower_truthy s1), <- (lower_truthy s2).
  by rewrite Hlower.
Qed.

(** The theorem on the chance node of [chance_heap] and one named in
    capitals. *)
Lemma node_attrs_case_insensitive_witness :
  node_attrs (chance_heap 1%N)
  = node_attrs {| id := "n"; current_player_name := Some "NATURE";
                  is_terminal := false; actions := None; payoff := None |}.
Proof.
  apply (node_attrs_case_insensitive _ _ "Nature" "NATURE");
    reflexivity.
Defined.

(** ** The agent *)

Lemma slice_to_length n text :
  String.length (slice_to n text) = (n `min` String.length text)%nat.
Proof.
  revert text. induction n as [|n IH]; intros [|c text]; simpl; [done..|].
  by rewrite IH.
Qed.

Lemma slice_to_prefix n text : ∃ rest, text = slice_to n text +:+ rest.
Proof.
  revert text. induction n as [|n IH]; intros [|c text];
    [by eexists..|].
  destruct (IH text) as [rest Hrest]. exists rest.
  change (String c text = String c (slice_to n text +:+ rest)). by f_equal.
Qed.

Lemma slice_to_short n text :
  (String.length text ≤ n)%nat → slice_to n text = text.
Proof.
  revert text. induction n as [|n IH]; intros [|c text]; simpl; try done.
  - lia.
  - intros Hle. rewrite IH; [done|lia].
Qed.

Lemma string_length_app s1 s2 :
  String.length (s1 +:+ s2) = (String.length s1 + String.length s2)%nat.
Proof. induction s1 as [|c s1 IH]; simpl; [done|]. by rewrite IH. Qed.

Section AgentProperties.

Variable textwrap_wrap : string → nat → list string.
Variable float_str : float → string.
Variable Client : Type.
Variable lib_exn : Type.
Variable lib_exn_str : lib_exn → string.
Variable traversal_exn_str : exn → string.
Variable from_openai : string → result lib_exn Client.
Variable create_screener : Client → list (string * string) → result lib_exn ScreenerOutput.
Variable create_analysis : Client → list (string * string) → result lib_exn GameTheoryAnalysis.
Variable fetch_url : string → option string.
Variable extract : string → option string.
Variable screener_prompt modeler_prompt : string.

Local Abbreviation screener_messages := (screener_messages screener_prompt).
Local Abbreviation modeler_messages := (modeler_messages modeler_prompt).
Local Abbreviation analyze_text_to_game :=
  (analyze_text_to_game Client lib_exn lib_exn_str from_openai create_screener
     create_analysis screener_prompt modeler_prompt).
Local Abbreviation fetch_article := (fetch_article lib_exn fetch_url extract).

(** With a client at hand: one screening call, then the modelling call
    when the screener finds a game. *)
Lemma analyze_text_to_game_with_client c text api_key log :
  analyze_text_to_game (Some c) text api_key log =
  let log1 := log ++ [Call (ChatCreate "gpt-4o" "ScreenerOutput"
                              (screener_messages text))] in
  match create_screener c (screener_messages text) with
  | Failed e => (Failed (LibraryError e), log1)
  | Done screener_response =>
      if is_strategic_game screener_response then
        let log2 := log1 ++ [Call (ChatCreate "gpt-4o" "GameTheoryAnalysis"
                                     (modeler_messages text))] in
        match create_analysis c (modeler_messages text) with
        | Failed e => (Failed (LibraryError e), log2)
        | Done game_analysis =>
            (Done (Some game_analysis, reasoning screener_response), log2)
        end
      else (Done (None, reasoning screener_response), log1)
  end.
Proof.
  unfold analyze_text_to_game, io_bind, io_ret, io_event, io_raise. simpl.
  destruct (create_screener c _) as [screener_response|e]; [|done].
  destruct (is_strategic_game screener_response); simpl; [|done].
  by destruct (create_analysis c _).
Qed.

(** With no client from the import and a key the library accepts: the
    client is built, then the run is that of a call with this client. *)
Lemma analyze_text_to_game_with_key k c text log :
  str_truthy k = true → from_openai k = Done c →
  analyze_text_to_game None text (Some k) log
  = analyze_text_to_game (Some c) text None (log ++ [Call (FromOpenAI k)]).
Proof.
  intros Hk Hopen. rewrite analyze_text_to_game_with_client.
  unfold analyze_text_to_game, io_bind, io_event, io_ret. simpl.
  rewrite Hk. simpl. rewrite Hopen. simpl.
  destruct (create_screener c _) as [so|e]; [|done].
  destruct (is_strategic_game so); simpl; [|done].
  by destruct (create_analysis c _).
Qed.

(** Whatever happens, the run only adds calls of three kinds. *)
Lemma analyze_text_to_game_calls client text api_key log :
  ∃ new,
    (analyze_text_to_game client text api_key log).2 = log ++ new
    ∧ Forall (λ ev,
        ev = Call (FromOpenAI (default "" api_key))
        ∨ ev = Call (ChatCreate "gpt-4o" "ScreenerOutput" (screener_messages text))
        ∨ ev = Call (ChatCreate "gpt-4o" "GameTheoryAnalysis" (modeler_messages text)))
      new.
Proof.
  assert (∀ c k log1, ∃ new,
            (analyze_text_to_game (Some c) text k log1).2 = log1 ++ new
            ∧ Forall (λ ev,
                ev = Call (FromOpenAI (default "" api_key))
                ∨ ev = Call (ChatCreate "gpt-4o" "ScreenerOutput" (screener_messages text))
                ∨ ev = Call (ChatCreate "gpt-4o" "GameTheoryAnalysis" (modeler_messages text)))
              new) as Hclient.
  { intros c k log1. rewrite analyze_text_to_game_with_client. simpl.
    destruct (create_screener c _) as [so|e]; [destruct (is_strategic_game so)|];
      [destruct (create_analysis c _)|..]; simpl;
      rewrite <- ?app_assoc; eexists; (split; [reflexivity|]);
      repeat first [apply Forall_nil_2 | apply Forall_cons_2; [by auto|]]. }
  destruct client as [c|]; [apply Hclient|].
  destruct api_key as [k|]; [destruct (str_truthy k) eqn:Hk|].
  - destruct (from_openai k) as [c|e] eqn:Hopen.
    + destruct (Hclient c (@None string) (log ++ [Call (FromOpenAI k)]))
        as (new & Hnew & Hall).
      exists (Call (FromOpenAI k) :: new). split.
      * rewrite (analyze_text_to_game_with_key k c) by done.
        by rewrite Hnew, <- app_assoc.
      * constructor; [by left|done].
    + exists [Call (FromOpenAI k)]. split; [|repeat constructor; by left].
      unfold analyze_text_to_game, io_bind, io_event, io_raise. simpl.
      rewrite Hk. simpl. by rewrite Hopen.
  - exists []. split; [|constructor].
    unfold analyze_text_to_game, io_bind, io_raise, io_ret. simpl.
    rewrite Hk. simpl. by rewrite app_nil_r.
  - exists []. split; [|constructor]. simpl. by rewrite app_nil_r.
Qed.

(** X9: a client initialised at import takes precedence over the key of
    the call: with it, [analyze_text_to_game] ignores [api_key] and builds
    no client. *)
Theorem analyze_text_to_game_prefers_global_client
    (c : Client) (text : string) (api_key : option string) (log : list event) :
  analyze_text_to_game (Some c) text api_key log
  = analyze_text_to_game (Some c) text None log
  ∧ ∃ new, (analyze_text_to_game (Some c) text api_key log).2 = log ++ new
           ∧ ∀ k, Call (FromOpenAI k) ∉ new.
Proof.
  split; [by rewrite !analyze_text_to_game_with_client|].
  rewrite analyze_text_to_game_with_client. simpl.
  destruct (create_screener c _) as [so|e]; [destruct (is_strategic_game so)|];
    [destruct (create_analysis c _)|..]; simpl;
    rewrite <- ?app_assoc; eexists; (split; [reflexivity|]);
    intros k Hin; repeat (apply elem_of_cons in Hin as [[=]|Hin]);
    by apply elem_of_nil in Hin.
Qed.

(** X10: when no client can be had (none from the import, and a key that
    is missing, empty, or refused by the library), [analyze_text_to_game]
    raises a [RuntimeError] and sends nothing to the model; with a missing
    or empty key it does not touch the outside at all. *)
Theorem analyze_text_to_game_without_client_raises
    (text : string) (api_key : option string) (log : list event) :
  (∀ c, from_openai (default "" api_key) ≠ Done c)
  ∨ str_truthy (default "" api_key) = false →
  ∃ msg new,
    analyze_text_to_game None text api_key log
      = (Failed (RuntimeError msg), log ++ new)
    ∧ (∀ model response_model messages,
         Call (ChatCreate model response_model messages) ∉ new)
    ∧ (str_truthy (default "" api_key) = false →
       new = []
       ∧ msg = "LLM Client not initialized. Please check your API keys.").
Proof.
  intros Hnone.
  unfold analyze_text_to_game, io_bind, io_event, io_raise, io_ret.
  destruct api_key as [k|]; simpl in *.
  - destruct (str_truthy k) eqn:Hk; simpl.
    + destruct Hnone as [Hrefused|[=]].
      destruct (from_openai k) as [c|e] eqn:Hopen; [by destruct (Hrefused c)|].
      eexists _, [_]. split; [reflexivity|]. split; [|done].
      intros model response_model messages [[=]|Hin%elem_of_nil]%elem_of_cons.
      done.
    + eexists _, []. rewrite app_nil_r. split; [reflexivity|].
      split; [|done]. intros model response_model messages Hin.
      by apply elem_of_nil in Hin.
  - eexists _, []. rewrite app_nil_r. split; [reflexivity|].
    split; [|done]. intros model response_model messages Hin.
    by apply elem_of_nil in Hin.
Qed.

(** X11: the screener gates the modeler.  With a client at hand, the
    modelling call is made exactly when the screening call returns and
    finds a game; whatever is returned carries the screener's reasoning,
    and the analysis is [None] exactly when the screener finds no game. *)
Theorem analyze_text_to_game_screener_gates_modeler
    (c : Client) (text : string) (api_key : option string) (log : list event) :
  ∃ new,
    (analyze_text_to_game (Some c) text api_key log).2 = log ++ new
    ∧ (Call (ChatCreate "gpt-4o" "GameTheoryAnalysis" (modeler_messages text)) ∈ new
       ↔ ∃ so, create_screener c (screener_messages text) = Done so
               ∧ is_strategic_game so = true)
    ∧ ∀ analysis reason,
        (analyze_text_to_game (Some c) text api_key log).1
          = Done (analysis, reason) →
        ∃ so, create_screener c (screener_messages text) = Done so
              ∧ reason = reasoning so
              ∧ (analysis = None ↔ is_strategic_game so = false)
              ∧ ∀ a, analysis = Some a →
                     create_analysis c (modeler_messages text) = Done a.
Proof.
  rewrite analyze_text_to_game_with_client. simpl.
  destruct (create_screener c _) as [so|e] eqn:Hscreen;
    [destruct (is_strategic_game so) eqn:Hgame|];
    [destruct (create_analysis c _) as [a|e] eqn:Hmodel|..]; simpl;
    rewrite <- ?app_assoc; eexists; (split; [reflexivity|]); split.
  - split; [intros _; by exists so|]. intros _. right. left.
  - intros analysis reason [= <- <-]. exists so.
    repeat split; try done; congruence.
  - split; [intros _; by exists so|]. intros _. right. left.
  - by intros analysis reason [=].
  - split.
    + intros [[=]|Hin%elem_of_nil]%elem_of_cons. done.
    + intros (so' & [= <-] & Hso). congruence.
  - intros analysis reason [= <- <-]. exists so.
    repeat split; try done; try congruence.
  - split.
    + intros [[=]|Hin%elem_of_nil]%elem_of_cons. done.
    + by intros (so' & [=] & _).
  - by intros analysis reason [=].
Qed.


End AgentProperties.

(** ** The main interface *)

Lemma io_for_each_shows {E A} (l : list A) (a : area) (f : A → element)
    (log : list event) :
  io_for_each (E := E) l (λ x, io_event (Show a (f x))) log
  = (Done tt, log ++ map (λ x, Show a (f x)) l).
Proof.
  revert log. induction l as [|x l IH]; intros log; simpl.
  - by rewrite app_nil_r.
  - unfold io_bind, io_event at 1. simpl. by rewrite IH, <- app_assoc.
Qed.

Lemma io_bind_show {E B} (a : area) (e : element) (k : unit → IO E B)
    (log : list event) :
  io_bind (show a e) k log = k tt (log ++ [Show a e]).
Proof. reflexivity. Qed.

(** Case analysis on the membership of an event in a list that is
    written out, and the search for an event in such a list. *)
Ltac elem_cases H :=
  repeat (apply elem_of_cons in H as [H|H]
          || apply elem_of_app in H as [H|H]);
  try discriminate; try (by apply elem_of_nil in H).

Ltac elem_search :=
  repeat first [apply list_elem_of_here | apply list_elem_of_further].

#[local] Arguments slice_to : simpl never.

Section AppProperties.

Variable textwrap_wrap : string → nat → list string.
Variable float_str : float → string.
Variable Client : Type.
Variable lib_exn : Type.
Variable lib_exn_str : lib_exn → string.
Variable traversal_exn_str : exn → string.
Variable from_openai : string → result lib_exn Client.
Variable create_screener : Client → list (string * string) → result lib_exn ScreenerOutput.
Variable create_analysis : Client → list (string * string) → result lib_exn GameTheoryAnalysis.
Variable fetch_url : string → option string.
Variable extract : string → option string.
Variable screener_prompt modeler_prompt : string.

Local Abbreviation screener_messages := (screener_messages screener_prompt).
Local Abbreviation modeler_messages := (modeler_messages modeler_prompt).
Local Abbreviation draw_game_tree := (draw_game_tree textwrap_wrap float_str).
Local Abbreviation analyze_text_to_game :=
  (analyze_text_to_game Client lib_exn lib_exn_str from_openai create_screener
     create_analysis screener_prompt modeler_prompt).
Local Abbreviation show_analysis := (show_analysis lib_exn).
Local Abbreviation show_game_tree :=
  (show_game_tree textwrap_wrap float_str lib_exn).
Local Abbreviation main_interface :=
  (main_interface textwrap_wrap float_str Client lib_exn lib_exn_str
     traversal_exn_str from_openai create_screener create_analysis
     screener_prompt modeler_prompt).
Local Abbreviation sidebar := (sidebar lib_exn fetch_url extract).
Local Abbreviation app :=
  (app textwrap_wrap float_str Client lib_exn lib_exn_str traversal_exn_str
     from_openai create_screener create_analysis fetch_url extract
     screener_prompt modeler_prompt).

(** An analysis that is returned is one the modeler gave for the text. *)
Lemma analyze_text_to_game_analysis client text api_key log response reason :
  (analyze_text_to_game client text api_key log).1 = Done (Some response, reason) →
  ∃ c, create_analysis c (modeler_messages text) = Done response.
Proof.
  assert (∀ c k log1,
            (analyze_text_to_game (Some c) text k log1).1
              = Done (Some response, reason) →
            ∃ c, create_analysis c (modeler_messages text) = Done response)
    as Hclient.
  { intros c k log1. rewrite analyze_text_to_game_with_client. simpl.
    destruct (create_screener c _) as [so|e]; [|done].
    destruct (is_strategic_game so); simpl; [|done].
    destruct (create_analysis c _) as [a|e] eqn:Hmodel; [|done].
    intros [= <- _]. by exists c. }
  destruct client as [c|]; [apply Hclient|].
  destruct api_key as [k|]; [|done].
  destruct (str_truthy k) eqn:Hk.
  - destruct (from_openai k) as [c|e] eqn:Hopen.
    + rewrite (analyze_text_to_game_with_key _ _ _ from_openai _ _ _ _ k c)
        by done. apply Hclient.
    + unfold analyze_text_to_game, io_bind, io_event, io_raise. simpl.
      rewrite Hk. simpl. by rewrite Hopen.
  - unfold analyze_text_to_game, io_bind, io_raise, io_ret. simpl.
    by rewrite Hk.
Qed.

(** The left column is always shown whole, and holds no chart. *)
Lemma show_analysis_run response log :
  ∃ new,
    show_analysis response log = (Done tt, log ++ new)
    ∧ Forall (λ ev, ∃ e, ev = Show Col1 e ∧ ∀ g, e ≠ st_graphviz_chart g) new.
Proof.
  unfold show_analysis. rewrite !io_bind_show. unfold show.
  rewrite io_for_each_shows, <- !app_assoc. simpl.
  eexists. split; [reflexivity|].
  repeat (apply Forall_cons_2; [by eexists|]).
  apply Forall_forall. intros ev (p & -> & _)%list_elem_of_fmap. by eexists.
Qed.

(** The right column: a warning without a tree, the chart of the graph
    [draw_game_tree] returns, or the exception it raises. *)
Lemma show_game_tree_run h limit response log :
  show_game_tree h limit response log =
  let log1 := log ++ [Show Col2 (st_subheader "Game Tree Visualization")] in
  match game_tree response with
  | None => (Done tt, log1 ++ [Show Col2 (st_warning "No game tree generated.")])
  | Some root =>
      match (draw_game_tree limit (Some root) h).1 with
      | Returned graph =>
          (Done tt,
           log1 ++ [Show Col2 (st_graphviz_chart graph);
                    Show Col2 (st_expander "🔍 View Raw Text / Zoom Details");
                    Show (Within Col2 "🔍 View Raw Text / Zoom Details")
                      (st_info "If the tree is too large, use browser zoom or right-click 'Open Image in New Tab'.")])
      | Raised e => (Failed (TraversalError e), log1)
      end
  end.
Proof.
  unfold show_game_tree, io_bind, show, io_event, io_raise. simpl.
  destruct (game_tree response) as [root|]; [|done].
  destruct (draw_game_tree limit (Some root) h).1; [|done].
  by rewrite <- !app_assoc.
Qed.

(** The events of a run of the main interface: it never raises; a call is
    made only after the button was pressed on a non-empty text; a chart is
    shown only in the right column, for a tree the modeler gave, and it is
    the graph [draw_game_tree] returns for that tree. *)
Lemma main_interface_run client h limit run_btn article_text api_key log :
  ∃ new,
    main_interface client h limit run_btn article_text api_key log
      = (Done tt, log ++ new)
    ∧ (run_btn && str_truthy article_text = false → ∀ c, Call c ∉ new)
    ∧ ∀ a g, Show a (st_graphviz_chart g) ∈ new →
        a = Col2
        ∧ ∃ c response root,
            create_analysis c (modeler_messages article_text) = Done response
            ∧ game_tree response = Some root
            ∧ (draw_game_tree limit (Some root) h).1 = Returned g.
Proof.
  unfold main_interface.
  destruct (run_btn && str_truthy article_text) eqn:Hrun.
  2:{ destruct (run_btn && negb (str_truthy article_text)).
      - eexists [_]. split; [reflexivity|]. split.
        + intros _ c [[=]|Hin%elem_of_nil]%elem_of_cons. done.
        + intros a g [[=]|Hin%elem_of_nil]%elem_of_cons. done.
      - exists []. unfold io_ret. rewrite app_nil_r. split; [done|].
        split; [intros _ c Hin|intros a g Hin]; by apply elem_of_nil in Hin. }
  unfold io_bind, io_try, show, io_event. simpl.
  destruct (analyze_text_to_game_calls Client lib_exn lib_exn_str from_openai
              create_screener create_analysis screener_prompt modeler_prompt
              client article_text (Some api_key)
              (log ++ [Show Page (st_spinner "Agent is modeling the game...")]))
    as (calls & Hcalls & Hkinds).
  pose proof (analyze_text_to_game_analysis client article_text (Some api_key)
                (log ++ [Show Page (st_spinner "Agent is modeling the game...")]))
    as Hanalysis.
  assert (∀ a g, Show a (st_graphviz_chart g) ∉ calls) as Hnochart.
  { intros a g Hin. rewrite Forall_forall in Hkinds.
    by destruct (Hkinds _ Hin) as [|[|]]. }
  destruct (analyze_text_to_game _ _ _ _)
    as [[[[response|] reason]|e] log2]; simpl in Hcalls; subst log2.
  - destruct (show_analysis_run response
                (((log ++ [Show Page (st_spinner "Agent is modeling the game...")])
                  ++ calls) ++ [Show Page (st_columns [1; 2]%nat)]))
      as (column & -> & Hcolumn).
    destruct (Hanalysis response reason eq_refl) as [c Hmodel].
    assert (∀ a g, Show a (st_graphviz_chart g) ∉ column) as Hnochart'.
    { intros a g Hin. rewrite Forall_forall in Hcolumn.
      destruct (Hcolumn _ Hin) as (e & [= _ <-] & Hne). by destruct (Hne g). }
    rewrite show_game_tree_run. simpl.
    destruct (game_tree response) as [root|] eqn:Htree;
      [destruct (draw_game_tree limit (Some root) h).1 as [graph|e] eqn:Hdraw|];
      rewrite <- ?app_assoc; simpl; eexists; (split; [reflexivity|]);
      (split; [intros [=]|]); intros a g Hin;
      repeat (apply elem_of_cons in Hin as [Hin|Hin] || apply elem_of_app in Hin as [Hin|Hin]);
      try discriminate; try (by apply elem_of_nil in Hin);
      try (by destruct (Hnochart a g)); try (by destruct (Hnochart' a g)).
    injection Hin as -> ->. split; [done|]. by exists c, response, root.
  - rewrite <- !app_assoc. simpl. eexists. split; [reflexivity|].
    split; [intros [=]|]. intros a g Hin.
    repeat (apply elem_of_cons in Hin as [Hin|Hin] || apply elem_of_app in Hin as [Hin|Hin]);
      try discriminate; try (by apply elem_of_nil in Hin);
      by destruct (Hnochart a g).
  - rewrite <- !app_assoc. simpl. eexists. split; [reflexivity|].
    split; [intros [=]|]. intros a g Hin.
    repeat (apply elem_of_cons in Hin as [Hin|Hin] || apply elem_of_app in Hin as [Hin|Hin]);
      try discriminate; try (by apply elem_of_nil in Hin);
      by destruct (Hnochart a g).
Qed.

(** X13: the main interface never raises, and it acts only on a pressed
    button: without the button nothing is shown or called; with the button
    and an empty text only the request for input is shown; a library is
    called only when the button was pressed on a non-empty text. *)
Theorem main_interface_never_raises
    (client : option Client) (h : heap) (limit : nat) (run_btn : bool)
    (article_text api_key : string) (log : list event) :
  ∃ new,
    main_interface client h limit run_btn article_text api_key log
      = (Done tt, log ++ new)
    ∧ (∀ c, Call c ∈ new → run_btn = true ∧ str_truthy article_text = true)
    ∧ (run_btn = false → new = [])
    ∧ (run_btn = true → str_truthy article_text = false →
       new = [Show Page (st_error "Please provide input text first.")]).
Proof.
  destruct (main_interface_run client h limit run_btn article_text api_key log)
    as (new & Hrun & Hcalls & _).
  exists new. split; [done|]. split; [|split].
  - intros c Hin. destruct run_btn, (str_truthy article_text); try done;
      by destruct (Hcalls eq_refl c).
  - intros ->. unfold main_interface in Hrun. simpl in Hrun.
    unfold io_ret in Hrun. injection Hrun as Hrun.
    apply (app_inv_head log). by rewrite app_nil_r.
  - intros -> Htext. unfold main_interface in Hrun. rewrite Htext in Hrun.
    simpl in Hrun. unfold show, io_event in Hrun. injection Hrun as Hrun.
    by apply (app_inv_head log).
Qed.

(** X14: a chart is shown only in the right column, only for a game tree
    that the modeler gave for the article text, and it holds the graph
    [draw_game_tree] returns for that tree: the drawing is never asked for
    a missing tree. *)
Theorem main_interface_charts_are_drawn_trees
    (client : option Client) (h : heap) (limit : nat) (run_btn : bool)
    (article_text api_key : string) (log : list event) :
  ∃ new,
    (main_interface client h limit run_btn article_text api_key log).2
      = log ++ new
    ∧ ∀ a g, Show a (st_graphviz_chart g) ∈ new →
        a = Col2
        ∧ ∃ c response root,
            create_analysis c (modeler_messages article_text) = Done response
            ∧ game_tree response = Some root
            ∧ (draw_game_tree limit (Some root) h).1 = Returned g.
Proof.
  destruct (main_interface_run client h limit run_btn article_text api_key log)
    as (new & Hrun & _ & Hcharts).
  exists new. by rewrite Hrun.
Qed.

(** X15: a cyclic game tree ends in a message, not in a crash.  When the
    modeler gives a tree in which some node reachable from the root is its
    own descendant, the [RecursionError] of [draw_game_tree] is caught: the
    run returns, its last element is the error message, and no chart is
    shown. *)
Theorem main_interface_reports_cyclic_tree
    (c : Client) (h : heap) (limit : nat) (article_text api_key : string)
    (log : list event) (so : ScreenerOutput) (response : GameTheoryAnalysis)
    (root x : addr) :
  str_truthy article_text = true →
  create_screener c (screener_messages article_text) = Done so →
  is_strategic_game so = true →
  create_analysis c (modeler_messages article_text) = Done response →
  game_tree response = Some root →
  rtc (child h) root x → tc (child h) x x →
  ∃ new,
    main_interface (Some c) h limit true article_text api_key log
      = (Done tt,
         log ++ new ++
         [Show Page (st_error ("An error occurred during analysis: "
                               +:+ traversal_exn_str RecursionError))])
    ∧ ∀ a g, Show a (st_graphviz_chart g) ∉ new.
Proof.
  intros Htext Hscreen Hgame Hmodel Htree Hreach Hcycle.
  unfold main_interface. rewrite Htext. simpl.
  rewrite io_bind_show. unfold io_try, io_bind at 1.
  rewrite analyze_text_to_game_with_client, Hscreen, Hgame, Hmodel. simpl.
  rewrite io_bind_show. unfold io_bind at 1.
  destruct (show_analysis_run response
              ((((log ++ [Show Page (st_spinner "Agent is modeling the game...")])
                 ++ [Call (ChatCreate "gpt-4o" "ScreenerOutput"
                             (screener_messages article_text))])
                ++ [Call (ChatCreate "gpt-4o" "GameTheoryAnalysis"
                            (modeler_messages article_text))])
               ++ [Show Page (st_columns [1; 2]%nat)]))
    as (column & -> & Hcolumn).
  rewrite show_game_tree_run, Htree, draw_game_tree_root. simpl.
  rewrite (cycle_never_fits h limit root x) by done.
  unfold show, io_event. simpl.
  exists ([Show Page (st_spinner "Agent is modeling the game...");
           Call (ChatCreate "gpt-4o" "ScreenerOutput"
                   (screener_messages article_text));
           Call (ChatCreate "gpt-4o" "GameTheoryAnalysis"
                   (modeler_messages article_text));
           Show Page (st_columns [1; 2]%nat)]
          ++ column ++ [Show Col2 (st_subheader "Game Tree Visualization")]).
  split; [by rewrite <- !app_assoc|]. intros a g Hin.
  repeat (apply elem_of_cons in Hin as [Hin|Hin] || apply elem_of_app in Hin as [Hin|Hin]);
    try discriminate; try (by apply elem_of_nil in Hin).
  rewrite Forall_forall in Hcolumn.
  destruct (Hcolumn _ Hin) as (e & [= _ <-] & Hne). by destruct (Hne g).
Qed.

(** The sidebar, written out: what it returns and the events it adds. *)
Lemma sidebar_run env_key inp session_text log :
  sidebar env_key inp session_text log =
  let api_key :=
    if str_truthy (default "" env_key) then default "" env_key
    else typed_api_key inp in
  let top :=
    [Show Sidebar (st_header "Configuration")]
    ++ (if str_truthy (default "" env_key) then []
        else [Show Sidebar (st_text_input "OpenAI API Key")])
    ++ [Show Sidebar st_divider; Show Sidebar (st_header "Input Source");
        Show Sidebar (st_radio "Choose Input:" ["URL"; "Raw Text"])] in
  let bottom := [Show Sidebar (st_button "Generate Game Model")] in
  match input_type inp with
  | Raw_Text =>
      (Done (api_key, pasted_text inp, run_clicked inp),
       log ++ top
       ++ [Show Sidebar (st_text_area "Paste Article Text Here"
                           (default "" session_text))]
       ++ bottom)
  | URL =>
      let downloaded :=
        match fetch_url (typed_url inp) with
        | Some d => if str_truthy d then Some d else None
        | None => None
        end in
      let fetched := default "" (downloaded ≫= extract) in
      let fetching :=
        if fetch_clicked inp then
          [Show Sidebar (st_spinner "Fetching article...");
           Call (FetchUrl (typed_url inp))]
          ++ match downloaded with Some d => [Call (Extract d)] | None => [] end
          ++ [Show Sidebar
                (if str_truthy fetched
                 then st_success "Article fetched successfully!"
                 else st_error
                   "Failed to fetch article. Please check the URL or try raw text.")]
        else [] in
      let article_text :=
        if fetch_clicked inp && str_truthy fetched then fetched
        else default "" session_text in
      let preview :=
        if str_truthy article_text then
          [Show Sidebar (st_expander "Show Content");
           Show (Within Sidebar "Show Content")
             (st_write (slice_to 500 article_text +:+ "..."))]
        else [] in
      (Done (api_key, article_text, run_clicked inp),
       log ++ top
       ++ [Show Sidebar (st_text_input "Enter Article URL");
           Show Sidebar (st_button "Fetch & Analyze")]
       ++ fetching ++ preview ++ bottom)
  end.
Proof.
  unfold sidebar, fetch_article, io_bind, show, io_event, io_ret. simpl.
  destruct (str_truthy (default "" env_key)); simpl;
    destruct (input_type inp); simpl; try (by rewrite <- !app_assoc).
  all: destruct (fetch_clicked inp); simpl.
  all: try (destruct (str_truthy (default "" session_text)); simpl;
            by rewrite <- !app_assoc).
  all: destruct (fetch_url (typed_url inp)) as [d|]; simpl;
       [destruct (str_truthy d); simpl;
        [destruct (extract d) as [t|]; simpl;
         [destruct (str_truthy t) eqn:Ht; simpl; rewrite ?Ht; simpl|]|]|].
  all: try (destruct (str_truthy (default "" session_text)); simpl).
  all: by rewrite <- !app_assoc.
Qed.

(** X16: what the sidebar leaves as the article text.  In "Raw Text" mode
    it is the pasted text, and nothing is called.  In "URL" mode the text
    of the session is replaced only by a non-empty text extracted from a
    non-empty download, with the success message; otherwise it is kept,
    with the error message when a fetch was asked for, and with no call
    when none was. *)
Theorem sidebar_article_text
    (env_key : option string) (inp : inputs) (session_text : option string)
    (log : list event) :
  ∃ api_key article_text new,
    sidebar env_key inp session_text log
      = (Done (api_key, article_text, run_clicked inp), log ++ new)
    ∧ match input_type inp with
      | Raw_Text => article_text = pasted_text inp ∧ ∀ c, Call c ∉ new
      | URL =>
          (article_text = default "" session_text
           ∧ (fetch_clicked inp = true →
              Show Sidebar (st_error
                "Failed to fetch article. Please check the URL or try raw text.")
              ∈ new)
           ∧ (fetch_clicked inp = false → ∀ c, Call c ∉ new))
          ∨ (fetch_clicked inp = true
             ∧ str_truthy article_text = true
             ∧ Show Sidebar (st_success "Article fetched successfully!") ∈ new
             ∧ ∃ downloaded,
                 fetch_url (typed_url inp) = Some downloaded
                 ∧ str_truthy downloaded = true
                 ∧ extract downloaded = Some article_text)
      end.
Proof.
  rewrite sidebar_run. cbv zeta.
  destruct (input_type inp).
  2:{ eexists _, _, _. split; [reflexivity|]. split; [done|]. intros c Hin.
      destruct (str_truthy (default "" env_key)); by elem_cases Hin. }
  destruct (fetch_clicked inp) eqn:Hclick.
  2:{ eexists _, _, _. split; [reflexivity|]. left.
      split; [done|]. split; [done|]. intros _ c Hin. simpl in Hin.
      destruct (str_truthy (default "" env_key)),
               (str_truthy (default "" session_text)); simpl in Hin;
        by elem_cases Hin. }
  destruct (fetch_url (typed_url inp)) as [d|] eqn:Hfetch; simpl;
    [destruct (str_truthy d) eqn:Hd; simpl;
     [destruct (extract d) as [t|] eqn:Hextract; simpl;
      [destruct (str_truthy t) eqn:Ht; simpl|]|]|].
  all: destruct (str_truthy (default "" env_key)); simpl.
  all: eexists _, _, _; (split; [reflexivity|]).
  all: first
    [ right; split; [done|]; split; [done|]; split; [elem_search|];
      by exists d
    | left; split; [done|]; split; [intros _; elem_search|done] ].
Qed.


(** X18: from the environment to the message.  With no key in the
    environment and none typed, pressing "Generate Game Model" on a pasted
    text calls no library at all and ends with the message that the client
    is not initialised; the pasted text stays in the session. *)
Theorem app_without_any_key_reports_missing_client
    (env_key : option string) (inp : inputs) (session_text : option string)
    (h : heap) (limit : nat) (log : list event) :
  str_truthy (default "" env_key) = false →
  typed_api_key inp = "" →
  input_type inp = Raw_Text →
  run_clicked inp = true →
  str_truthy (pasted_text inp) = true →
  ∃ new,
    app env_key inp session_text h limit log
      = (Done (pasted_text inp),
         log ++ new ++
         [Show Page (st_error
            "An error occurred during analysis: LLM Client not initialized. Please check your API keys.")])
    ∧ ∀ c, Call c ∉ new.
Proof.
  intros Henv Hkey Hmode Hrun Htext.
  unfold app, init_client, sidebar, main_interface, analyze_text_to_game,
    io_try, io_bind, io_raise, show, io_event, io_ret.
  assert (init_key : match env_key with
                     | Some k => str_truthy k = false
                     | None => True
                     end) by (by destruct env_key).
  destruct env_key as [k|]; simpl in *; rewrite ?init_key, ?Henv; simpl;
    rewrite Hmode, Hrun, Hkey, Htext; simpl;
    rewrite <- ?app_assoc; simpl.
  all: eexists (_ :: _ :: _ :: _ :: _ :: _ :: _ :: _ :: _ :: _ :: [_]);
       (split; [reflexivity|]); intros c Hin; by elem_cases Hin.
Qed.

End AppProperties.

(** The theorem on a key the library refuses. *)
Lemma analyze_text_to_game_without_client_raises_witness :
  ((∀ c : unit, no_client (default "" (Some "sk-refused")) ≠ Done c)
   ∨ str_truthy (default "" (Some "sk-refused")) = false)
  ∧ ∃ msg new,
      analyze_text_to_game unit string msg_itself no_client
        (screener_says true) (modeler_says None) "screen" "model"
        None "Two firms set prices." (Some "sk-refused") []
      = (Failed (RuntimeError msg), [] ++ new).
Proof.
  assert ((∀ c : unit, no_client (default "" (Some "sk-refused")) ≠ Done c)
          ∨ str_truthy (default "" (Some "sk-refused")) = false) as Hrefused
    by (left; intros c; discriminate).
  split; [exact Hrefused|].
  destruct (analyze_text_to_game_without_client_raises unit string msg_itself
              no_client (screener_says true) (modeler_says None)
              "screen" "model" "Two firms set prices." (Some "sk-refused") []
              Hrefused) as (msg & new & Hrun & _).
  exists msg, new. exact Hrun.
Defined.

(** The theorem on a modeler that answers with the root that is its own
    child. *)
Lemma main_interface_reports_cyclic_tree_witness :
  ∃ new,
    main_interface wrap_one_line str_table unit string msg_itself recursion_msg
      any_client (screener_says true) (modeler_says (Some 1%N))
      "screen" "model" (Some tt) loop_heap 1000 true
      "Two firms set prices." "sk-test" []
    = (Done tt,
       [] ++ new ++
       [Show Page (st_error ("An error occurred during analysis: "
                             +:+ recursion_msg RecursionError))])
    ∧ ∀ a g, Show a (st_graphviz_chart g) ∉ new.
Proof.
  apply (main_interface_reports_cyclic_tree wrap_one_line str_table unit string
           msg_itself recursion_msg any_client (screener_says true)
           (modeler_says (Some 1%N)) "screen" "model" tt loop_heap 1000
           "Two firms set prices." "sk-test" []
           {| is_strategic_game := true; reasoning := "two sides" |}
           (example_analysis (Some 1%N)) 1%N 1%N).
  - reflexivity.
  - reflexivity.
  - reflexivity.
  - reflexivity.
  - reflexivity.
  - apply rtc_refl.
  - apply tc_once. exists (mk_action "Wait" None 1%N). split; [left|reflexivity].
Defined.

(** The theorem on a first run with a pasted text and no key anywhere. *)
Lemma app_without_any_key_reports_missing_client_witness :
  ∃ new,
    app wrap_one_line str_table unit string msg_itself recursion_msg
      any_client (screener_says true) (modeler_says None) no_page no_page
      "screen" "model" None (raw_text_run "Two firms set prices.") None
      loop_heap 1000 []
    = (Done (pasted_text (raw_text_run "Two firms set prices.")),
       [] ++ new ++
       [Show Page (st_error
          "An error occurred during analysis: LLM Client not initialized. Please check your API keys.")])
    ∧ ∀ c, Call c ∉ new.
Proof.
  apply (app_without_any_key_reports_missing_client wrap_one_line str_table
           unit string msg_itself recursion_msg any_client (screener_says true)
           (modeler_says None) no_page no_page "screen" "model" None
           (raw_text_run "Two firms set prices.") None loop_heap 1000 []);
    reflexivity.
Defined.

(** ** verify.py *)

#[local] Arguments strip : simpl never.

Section VerifyProperties.

Variable Client : Type.
Variable lib_exn : Type.
Variable lib_exn_str : lib_exn → string.
Variable traversal_exn_str : exn → string.
Variable from_openai : string → result lib_exn Client.
Variable create_screener : Client → list (string * string) → result lib_exn ScreenerOutput.
Variable create_analysis : Client → list (string * string) → result lib_exn GameTheoryAnalysis.
Variable screener_prompt modeler_prompt : string.
Variable list_repr : list string → string.

Local Abbreviation verify :=
  (verify Client lib_exn lib_exn_str traversal_exn_str from_openai
     create_screener create_analysis screener_prompt modeler_prompt list_repr).


End VerifyProperties.
